(** * Bolt: the query, update and aggregation engine of [src/Boltjs/bolt.js]

    A shallow embedding of the in-memory part of the [Bolt] class: the
    predicate every read method applies to the documents of the store, the
    object spread of [update], the reduction of [sum] and the stages of
    [aggregate].  The JavaScript operators the source relies on ([===], [||],
    [+], property lookup, the order of an object's own properties) are
    embedded first, as ECMAScript defines them; the object store of the
    browser comes next, then the methods of the class, then the statements.

    Conventions of the embedding.
    - A number is an IEEE 754 binary64 value ([float]).
    - A string is a [string]; the source never looks inside one.
    - A nested value (plain object or array) is seen by the source only
      through its identity ([===]), its truth value (always true) and its
      string form (as a property key and as an operand of [+]); [VObject]
      carries exactly those.  Its conversion to a primitive is assumed to
      yield that string.
    - A document, a query and a patch are ordinary objects whose prototype is
      [Object.prototype], with the properties the engine gives it and no
      other; their own properties form a [gmap].  The order of
      the own properties of a document is not kept: nothing in the source
      depends on it.  The order of the own properties of the table built by a
      [$group] stage is kept, since [Object.values] exposes it.
    - [Object.prototype] and the functions it holds are as the engine
      provides them.  A [$group] stage that files a document under the name
      of one of these properties writes onto the built-in object; that write
      is not embedded, and the statements about [$group] stages are made for
      the working sets that file no document so ([plain_keys]). *)

From Stdlib Require Import Floats ZArith Uint63 DecimalString Sorted.
From stdpp Require Import gmap strings list.

(** ** Values *)

Module JS.

(** Identity of an object.  [Cloned] is an object that came out of the
    structured clone of a read: [===] only ever compares a value of the
    working set with a value written by the caller, and a fresh clone is
    identical to none of those.  [Held] is an object the caller holds,
    [Builtin] a property of [Object.prototype]. *)
Inductive objref :=
| Cloned
| Held (n : nat)
| Builtin (name : string).

Inductive value :=
| VUndefined
| VNull
| VBool (b : bool)
| VNum (x : float)
| VStr (s : string)
| VObject (r : objref) (shown : string).

Definition same_object (a b : objref) : bool :=
  match a, b with
  | Held n, Held m => Nat.eqb n m
  | Builtin s, Builtin t => String.eqb s t
  | _, _ => false
  end.

(** [a === b] *)
Definition strict_eq (a b : value) : bool :=
  match a, b with
  | VUndefined, VUndefined => true
  | VNull, VNull => true
  | VBool x, VBool y => Bool.eqb x y
  | VNum x, VNum y => PrimFloat.eqb x y
  | VStr s, VStr t => String.eqb s t
  | VObject r _, VObject r' _ => same_object r r'
  | _, _ => false
  end.

(** ToBoolean *)
Definition truthy (v : value) : bool :=
  match v with
  | VUndefined | VNull => false
  | VBool b => b
  | VNum x => negb (PrimFloat.is_zero x || PrimFloat.is_nan x)
  | VStr s => negb (String.eqb s "")
  | VObject _ _ => true
  end.

(** [a || b] *)
Definition js_or (a b : value) : value := if truthy a then a else b.

(** *** Number::toString, radix 10

    The digits are the shortest decimal that reads back as the same binary64
    value, the closest such decimal when several have that length. *)

Local Open Scope Z_scope.

Definition digits_of (n : Z) : string :=
  NilZero.string_of_uint (N.to_uint (Z.to_N n)).

Fixpoint zeros (n : nat) : string :=
  match n with
  | O => ""
  | S n' => "0" +:+ zeros n'
  end.

(** Compares [s * 10^q] with [x * 2^e]. *)
Definition cmp_dec_bin (s q x e : Z) : comparison :=
  (s * 10 ^ Z.max q 0 * 2 ^ Z.max (- e) 0
   ?= x * 2 ^ Z.max e 0 * 10 ^ Z.max (- q) 0).

(** The least [n], from a guess not above it, with [m * 2^e < 10^n]. *)
Fixpoint magnitude (fuel : nat) (m e n : Z) : Z :=
  match fuel with
  | O => n
  | S fuel' =>
      match cmp_dec_bin 1 n m e with
      | Gt => n
      | _ => magnitude fuel' m e (n + 1)
      end
  end.

(** Does [s * 10^q] round to [m * 2^e]?  [lo] and [hi] are the midpoints to
    the neighbouring binary64 values, in units of [2^(e-2)]; a midpoint
    rounds to the value whose significand is even. *)
Definition in_rounding_interval (m e lo hi s q : Z) : bool :=
  match cmp_dec_bin s q lo (e - 2), cmp_dec_bin s q hi (e - 2) with
  | Gt, Lt => true
  | Eq, _ | _, Eq => Z.even m
  | _, _ => false
  end.

(** The [k]-digit decimal [s * 10^(n-k)] that rounds to [m * 2^e], if any. *)
Definition shortest_at (m e lo hi n k : Z) : option Z :=
  let q := n - k in
  let s0 := (m * 2 ^ Z.max e 0 * 10 ^ Z.max (- q) 0)
            / (2 ^ Z.max (- e) 0 * 10 ^ Z.max q 0) in
  let s1 := s0 + 1 in
  match in_rounding_interval m e lo hi s0 q,
        in_rounding_interval m e lo hi s1 q with
  | true, false => Some s0
  | false, true => Some s1
  | false, false => None
  | true, true =>
      match cmp_dec_bin (2 * s0 + 1) q (2 * m) e with
      | Gt => Some s0
      | Lt => Some s1
      | Eq => Some (if Z.even s0 then s0 else s1)
      end
  end.

Fixpoint shortest (fuel : nat) (m e lo hi n k : Z) : Z * Z :=
  match fuel with
  | O => (0, k)
  | S fuel' =>
      match shortest_at m e lo hi n k with
      | Some s => (s, k)
      | None => shortest fuel' m e lo hi n (k + 1)
      end
  end.

Definition finite_to_string (m e : Z) : string :=
  let hi := 4 * m + 2 in
  let lo := if (m =? 2 ^ 52) && (-1074 <? e) then 4 * m - 1 else 4 * m - 2 in
  let bits := Z.log2 m + 1 + e in
  let n0 := magnitude 4 m e ((bits - 1) * 30103 / 100000) in
  let '(s0, k0) := shortest 17 m e lo hi n0 1 in
  let '(s, k, n) := if s0 =? 10 ^ k0 then (1, 1, n0 + 1) else (s0, k0, n0) in
  let ds := digits_of s in
  if (k <=? n) && (n <=? 21) then ds +:+ zeros (Z.to_nat (n - k))
  else if (0 <? n) && (n <=? 21) then
    String.substring 0 (Z.to_nat n) ds +:+ "." +:+
    String.substring (Z.to_nat n) (Z.to_nat (k - n)) ds
  else if (-6 <? n) && (n <=? 0) then "0." +:+ zeros (Z.to_nat (- n)) +:+ ds
  else
    let ex := (if n - 1 <? 0 then "e-" else "e+") +:+ digits_of (Z.abs (n - 1)) in
    if k =? 1 then ds +:+ ex
    else String.substring 0 1 ds +:+ "." +:+
         String.substring 1 (Z.to_nat (k - 1)) ds +:+ ex.

Definition number_to_string (x : float) : string :=
  match Prim2SF x with
  | S754_nan => "NaN"
  | S754_zero _ => "0"
  | S754_infinity s => if s then "-Infinity" else "Infinity"
  | S754_finite s m e => (if s then "-" else "") +:+ finite_to_string (Z.pos m) e
  end.

Local Close Scope Z_scope.

(** ToString; also ToPropertyKey, the source using no symbol. *)
Definition to_string (v : value) : string :=
  match v with
  | VUndefined => "undefined"
  | VNull => "null"
  | VBool b => if b then "true" else "false"
  | VNum x => number_to_string x
  | VStr s => s
  | VObject _ shown => shown
  end.

(** ToNumber, on the values that reach it in [js_add] (no string does). *)
Definition to_number (v : value) : float :=
  match v with
  | VUndefined => PrimFloat.nan
  | VNull => 0%float
  | VBool b => if b then 1%float else 0%float
  | VNum x => x
  | VStr _ | VObject _ _ => PrimFloat.nan
  end.

Definition is_stringy (v : value) : bool :=
  match v with
  | VStr _ | VObject _ _ => true
  | _ => false
  end.

(** [a + b]: concatenation as soon as one operand is, or converts to, a
    string; the sum of the operands as numbers otherwise. *)
Definition js_add (a b : value) : value :=
  if is_stringy a || is_stringy b
  then VStr (to_string a +:+ to_string b)
  else VNum (to_number a + to_number b).

(** *** Ordinary objects *)

Abbreviation obj := (gmap string value).

(** The properties every ordinary object inherits. *)
Definition object_prototype : list string :=
  [ "constructor"; "__defineGetter__"; "__defineSetter__"; "hasOwnProperty";
    "__lookupGetter__"; "__lookupSetter__"; "isPrototypeOf";
    "propertyIsEnumerable"; "toString"; "valueOf"; "__proto__";
    "toLocaleString" ].

Definition is_inherited (k : string) : bool :=
  existsb (String.eqb k) object_prototype.

Definition builtin_shown (k : string) : string :=
  if String.eqb k "__proto__" then "[object Object]"
  else if String.eqb k "constructor" then "function Object() { [native code] }"
  else "function " +:+ k +:+ "() { [native code] }".

Definition inherited (k : string) : value :=
  if is_inherited k then VObject (Builtin k) (builtin_shown k) else VUndefined.

(** [o[k]]: the own property, else the inherited one, else [undefined]. *)
Definition get (o : obj) (k : string) : value :=
  match o !! k with
  | Some v => v
  | None => inherited k
  end.

(** [Object.keys(o)] *)
Definition keys (o : obj) : list string := (map_to_list o).*1.

(** [o[k] = v] for a primitive [v].  The one inherited setter, [__proto__],
    ignores a primitive; every other name becomes an own property. *)
Definition assign (o : obj) (k : string) (v : value) : obj :=
  match o !! k with
  | None => if String.eqb k "__proto__" then o else <[k := v]> o
  | Some _ => <[k := v]> o
  end.

End JS.

(** ** The object store *)

Module Store.
Import JS.

(** Modelled from the spec: the storage adapter, that is the object store of
    the browser, which [src/] only calls ([getAll], [put], [delete]).  The
    spec gives it as a keyed collection with read-all, replace-by-id and
    delete-by-id; the store is created with [keyPath: '_id'], so a record is
    a document and its key is the document's own [_id].  Requests are served
    one after the other in the order they are issued.  Keys are numbers and
    strings (date, binary and array keys are nested values, which the
    embedding keeps opaque); what the engine does for a document it is given
    without a usable [_id] is not embedded: the write is refused. *)
Inductive key :=
| KNum (x : float)
| KStr (s : string).

Definition key_of_value (v : value) : option key :=
  match v with
  | VNum x => if PrimFloat.is_nan x then None else Some (KNum x)
  | VStr s => Some (KStr s)
  | _ => None
  end.

Definition key_eqb (a b : key) : bool :=
  match a, b with
  | KNum x, KNum y => PrimFloat.eqb x y
  | KStr s, KStr t => String.eqb s t
  | _, _ => false
  end.

(** Numbers sort before strings. *)
Definition key_ltb (a b : key) : bool :=
  match a, b with
  | KNum x, KNum y => PrimFloat.ltb x y
  | KNum _, KStr _ => true
  | KStr s, KStr t => String.ltb s t
  | KStr _, KNum _ => false
  end.

(** The records, in key order. *)
Abbreviation store := (list obj).

Definition record_key (r : obj) : option key :=
  match r !! "_id" with
  | Some v => key_of_value v
  | None => None
  end.

Definition has_key (k : key) (r : obj) : bool :=
  match record_key r with
  | Some k' => key_eqb k k'
  | None => false
  end.

Definition key_before (k : key) (r : obj) : bool :=
  match record_key r with
  | Some k' => key_ltb k k'
  | None => false
  end.

(** The structured clone of a value: same content, new identity. *)
Definition clone_value (v : value) : value :=
  match v with
  | VObject _ shown => VObject Cloned shown
  | _ => v
  end.

Definition clone (o : obj) : obj := clone_value <$> o.

(** A function cannot be cloned. *)
Definition cloneable_value (v : value) : bool :=
  match v with
  | VObject (Builtin _) _ => false
  | _ => true
  end.

Definition cloneable (o : obj) : bool :=
  forallb (fun kv : string * value => cloneable_value kv.2) (map_to_list o).

(** Modelled from the spec: read-all, [store.getAll()], which yields a
    clone of every record, in key order. *)
Definition read_all (s : store) : list obj := map clone s.

Fixpoint insert_sorted (k : key) (d : obj) (s : store) : store :=
  match s with
  | [] => [d]
  | r :: t => if key_before k r then d :: r :: t else r :: insert_sorted k d t
  end.

Definition upsert (k : key) (d : obj) (s : store) : store :=
  if existsb (has_key k) s
  then map (fun r => if has_key k r then d else r) s
  else insert_sorted k d s.

(** Modelled from the spec: replace-by-id, [store.put(d)], which writes a
    clone of [d] under its [_id], in the place of the record that has this
    key if there is one; [None] when the call throws. *)
Definition put (d : obj) (s : store) : option store :=
  if cloneable d then
    match record_key d with
    | Some k => Some (upsert k (clone d) s)
    | None => None
    end
  else None.

(** Modelled from the spec: delete-by-id, [store.delete(v)]; [None] when
    [v] is not a key. *)
Definition delete_by_id (v : value) (s : store) : option store :=
  match key_of_value v with
  | Some k => Some (List.filter (fun r => negb (has_key k r)) s)
  | None => None
  end.

(** Modelled from the spec: the transaction handle, what
    [db.transaction(name, mode).objectStore(name)] yields.  The spec has the
    handle usable for the single logical operation that requested it; in the
    browser's store a transaction is active in the turn of the event loop
    that created it, the continuations of promises already settled
    included, and in the callbacks of its own requests, and it commits once
    that turn is over with no request pending.  A method that awaits the
    outcome of a request of another transaction resumes in a callback of
    that other transaction: a handle it obtained before is not active there,
    and a request made on it throws. *)
Inductive mode := Readonly | Readwrite.

Record handle := { h_mode : mode; h_active : bool }.

(** The handle of a new transaction. *)
Definition transaction (m : mode) : handle := {| h_mode := m; h_active := true |}.

(** The handle, once the method that holds it has resumed from awaiting a
    request of another transaction. *)
Definition resumed_elsewhere (h : handle) : handle :=
  {| h_mode := h_mode h; h_active := false |}.

(** A write through a handle throws when the transaction is not active, and
    when it is read-only. *)
Definition takes_writes (h : handle) : bool :=
  h_active h && match h_mode h with Readwrite => true | Readonly => false end.

(** [store.put(d)] and [store.delete(v)] on the object store of a handle;
    [None] when the call throws. *)
Definition put_in (h : handle) (d : obj) (s : store) : option store :=
  if takes_writes h then put d s else None.

Definition delete_in (h : handle) (v : value) (s : store) : option store :=
  if takes_writes h then delete_by_id v s else None.

(** Modelled from the spec: what the adapter maintains, every record has a
    key and no two records share one. *)
Fixpoint store_ok (s : store) : bool :=
  match s with
  | [] => true
  | r :: t =>
      match record_key r with
      | Some k => forallb (fun r' => negb (has_key k r')) t && store_ok t
      | None => false
      end
  end.

(** Modelled from the spec: insert-with-generated-id, [store.add(d)], on a
    store created with [autoIncrement: true]; the spec has the adapter
    assign identifiers that increase and are never reused, and the rest is
    the key generator of the browser's store.  The database is the records
    together with the current number of the key generator, which starts at 1.
    A document without [_id] (or with an undefined one) is stored under the
    current number, which then grows by one; a document that brings a key is
    stored under it, and a numeric key at or above the current number moves
    the generator past it.  The request fails, and nothing changes, when the
    document cannot be cloned, when its [_id] is not a key, when the
    generator is exhausted or when a record already has the key. *)
Record database := { records : store; generator : Z }.

Definition number_of_Z (n : Z) : float := PrimFloat.of_uint63 (Uint63.of_Z n).

(** The floor of [min(x, 2^53)] for a key [x] of at least 1, and 0 for the
    keys below 1, which never reach the current number. *)
Definition floor_of_key (x : float) : Z :=
  match Prim2SF x with
  | S754_finite false m e =>
      Z.min (if (0 <=? e)%Z then Z.pos m * 2 ^ e else Z.pos m / 2 ^ (- e)) (2 ^ 53)
  | S754_infinity false => (2 ^ 53)%Z
  | _ => 0%Z
  end.

Definition bump (k : key) (g : Z) : Z :=
  match k with
  | KNum x => if (g <=? floor_of_key x)%Z then (floor_of_key x + 1)%Z else g
  | KStr _ => g
  end.

(** Storing the clone [d] under the key of [v], unless a record has it;
    [next] gives the current number afterwards. *)
Definition store_new (v : value) (d : obj) (next : key -> Z) (db : database)
    : database * option value :=
  match key_of_value v with
  | Some k =>
      if existsb (has_key k) (records db) then (db, None)
      else ({| records := insert_sorted k d (records db); generator := next k |},
            Some v)
  | None => (db, None)
  end.

(** [store.add(d)]: the database afterwards and the key of the new record,
    [None] when the request fails. *)
Definition add (d : obj) (db : database) : database * option value :=
  if cloneable d then
    match d !! "_id" with
    | None | Some VUndefined =>
        let v := VNum (number_of_Z (generator db)) in
        if (2 ^ 53 <? generator db)%Z then (db, None)
        else store_new v (<["_id" := v]> (clone d)) (fun _ => (generator db + 1)%Z) db
    | Some v => store_new v (clone d) (fun k => bump k (generator db)) db
    end
  else (db, None).

(** The current number [g] has passed the key of the record [r]: a numeric
    key lies below it. *)
Definition passed (g : Z) (r : obj) : bool :=
  match record_key r with
  | Some (KNum x) => (floor_of_key x <? g)%Z
  | _ => true
  end.

(** Modelled from the spec: what the adapter maintains on a database, the
    records have distinct keys and the generator, which starts at 1 and only
    moves forward, has passed every numeric key. *)
Definition database_ok (db : database) : bool :=
  store_ok (records db) && (1 <=? generator db)%Z
  && forallb (passed (generator db)) (records db).

End Store.

(** ** The methods of the class *)

Module Bolt.
Import JS Store.

(** [doc => Object.keys(query).every(key => doc[key] === query[key])], the
    predicate of [findOne], [find], [sum] and of a [$match] stage. *)
Definition matches (doc query : obj) : bool :=
  forallb (fun key => strict_eq (get doc key) (get query key)) (keys query).

(** [{ ...doc, ...update }] *)
Definition merge (doc update : obj) : obj := update ∪ doc.

Definition find (query : obj) (s : store) : list obj :=
  List.filter (fun doc => matches doc query) (read_all s).

(** [_getTransaction(storeMode)]: the object store of a new transaction.
    [insertOne], [findOne], [find], [sum] and [aggregate] make their one
    request on it at once, while the transaction is active, and are embedded
    on the store directly; [update] and [delete] keep the handle across an
    [await]. *)
Definition _getTransaction (storeMode : mode) : handle := transaction storeMode.

(** One turn of [docs.map] in [update], on the object store [tx]: the state
    is the store and what [Promise.all] will settle to, [None] once a
    promise is rejected.  A [put] that throws does so inside the promise's
    executor, which rejects the promise; the turns that follow still run. *)
Definition update_doc (tx : handle) (update : obj) (st : store * option (list obj))
    (doc : obj) : store * option (list obj) :=
  let updatedDoc := merge doc update in
  match put_in tx updatedDoc st.1 with
  | Some s' => (s', (fun done => done ++ [updatedDoc]) <$> st.2)
  | None => (st.1, None)
  end.

(** [update]: the read-write transaction is opened first, then [find] is
    awaited, which reads through a transaction of its own; the writes are
    made on the first handle after that. *)
Definition update (filter update : obj) (s : store) : store * option (list obj) :=
  let tx := _getTransaction Readwrite in
  let docs := find filter s in
  fold_left (update_doc (resumed_elsewhere tx) update) docs (s, Some []).

(** One turn of [docs.map] in [delete], with the count that [.then] returns. *)
Definition delete_doc (tx : handle) (st : store * option nat) (doc : obj)
    : store * option nat :=
  match delete_in tx (get doc "_id") st.1 with
  | Some s' => (s', S <$> st.2)
  | None => (st.1, None)
  end.

(** [delete]: as in [update], the handle is obtained before [find] is
    awaited and used after. *)
Definition delete (query : obj) (s : store) : store * option nat :=
  let tx := _getTransaction Readwrite in
  let docs := find query s in
  fold_left (delete_doc (resumed_elsewhere tx)) docs (s, Some 0).

Definition sum (field : string) (condition : obj) (s : store) : value :=
  fold_left (fun acc doc => js_add acc (js_or (get doc field) (VNum 0)))
    (List.filter (fun doc => matches doc condition) (read_all s))
    (VNum 0).

(** [findOne]: the first document that matches, [None] for [null]. *)
Definition findOne (query : obj) (s : store) : option obj :=
  List.find (fun doc => matches doc query) (read_all s).

(** [insertOne]: the database afterwards and what the promise settles to,
    the key of the new record, [None] when it is rejected. *)
Definition insertOne (doc : obj) (db : database) : database * option value :=
  add doc db.

(** [insertMany]: the inserts are issued in the order of [docs], each in a
    transaction of its own, and [Promise.all] resolves with the keys in that
    order, or is rejected as soon as one insert is. *)
Definition insert_next (st : database * option (list value)) (doc : obj)
    : database * option (list value) :=
  let '(db', id) := insertOne doc st.1 in
  (db', match st.2, id with
        | Some ids, Some v => Some (ids ++ [v])
        | _, _ => None
        end).

Definition insertMany (docs : list obj) (db : database)
    : database * option (list value) :=
  fold_left insert_next docs (db, Some []).

(** *** [aggregate] *)

(** The own properties of [grouped], in the order [Object.values] lists
    them: the keys that are array indices by ascending index, then the other
    keys in the order they were created. *)
Record table := { indexed : list (N * obj); named : list (string * obj) }.

Definition empty_table : table := {| indexed := []; named := [] |}.

(** A key is an array index when it is the decimal form of an integer below
    [2^32 - 1]. *)
Definition array_index (k : string) : option N :=
  match NilZero.uint_of_string k with
  | Some u =>
      let i := N.of_uint u in
      if String.eqb (NilZero.string_of_uint (N.to_uint i)) k && (i <? 4294967295)%N
      then Some i else None
  | None => None
  end.

Fixpoint get_indexed (i : N) (l : list (N * obj)) : option obj :=
  match l with
  | [] => None
  | (j, v) :: t => if (i =? j)%N then Some v else get_indexed i t
  end.

Fixpoint get_named (k : string) (l : list (string * obj)) : option obj :=
  match l with
  | [] => None
  | (k', v) :: t => if String.eqb k k' then Some v else get_named k t
  end.

Fixpoint put_indexed (i : N) (v : obj) (l : list (N * obj)) : list (N * obj) :=
  match l with
  | [] => [(i, v)]
  | (j, w) :: t =>
      if (i <? j)%N then (i, v) :: (j, w) :: t
      else if (i =? j)%N then (j, v) :: t
      else (j, w) :: put_indexed i v t
  end.

Fixpoint put_named (k : string) (v : obj) (l : list (string * obj))
    : list (string * obj) :=
  match l with
  | [] => [(k, v)]
  | (k', w) :: t =>
      if String.eqb k k' then (k', v) :: t else (k', w) :: put_named k v t
  end.

(** The own property [k] of the table. *)
Definition table_get (k : string) (t : table) : option obj :=
  match array_index k with
  | Some i => get_indexed i (indexed t)
  | None => get_named k (named t)
  end.

Definition table_put (k : string) (v : obj) (t : table) : table :=
  match array_index k with
  | Some i => {| indexed := put_indexed i v (indexed t); named := named t |}
  | None => {| indexed := indexed t; named := put_named k v (named t) |}
  end.

(** [Object.keys(grouped)] and [Object.values(grouped)] *)
Definition table_keys (t : table) : list string :=
  map (fun i => digits_of (Z.of_N i)) (indexed t).*1 ++ (named t).*1.

Definition table_values (t : table) : list obj :=
  (indexed t).*2 ++ (named t).*2.

(** [stage.$group]: its own properties, and those of its [initial], which
    the spread copies. *)
Record group_spec := { gs_object : obj; gs_initial : obj }.

(** A pipeline stage, read through [stage.$match] and [stage.$group]:
    [Some] for a property that holds an object, [None] for one that is
    absent or falsy (a truthy primitive there is not embedded). *)
Record stage := { s_match : option obj; s_group : option group_spec }.

(** [{ $match: query }] and [{ $group: spec }] *)
Definition match_stage (query : obj) : stage :=
  {| s_match := Some query; s_group := None |}.

Definition group_stage (spec : group_spec) : stage :=
  {| s_match := None; s_group := Some spec |}.

(** The inner [forEach] of a [$group] stage, on the accumulator of the
    document's group. *)
Definition accumulate (spec : group_spec) (doc acc : obj) : obj :=
  fold_left
    (fun acc field =>
       if negb (String.eqb field "_id") && negb (String.eqb field "initial")
       then assign acc field (js_add (js_or (get acc field) (VNum 0)) (get doc field))
       else acc)
    (keys (gs_object spec)) acc.

Definition group_key (spec : group_spec) (doc : obj) : value :=
  get doc (to_string (get (gs_object spec) "_id")).

(** [{ _id: key, ...stage.$group.initial }] *)
Definition seed (spec : group_spec) (key : value) : obj :=
  gs_initial spec ∪ {[ "_id" := key ]}.

(** The body of [result.forEach(doc => ...)].  [grouped[key]] is the own
    property, else what [grouped] inherits: under a key that names a
    property of [Object.prototype] the lookup is truthy, no accumulator is
    created, and the assignments land on the built-in object, which is not
    part of [grouped].  The embedding stops there: it does not follow the
    built-in object, so what later lookups inherit from it is not embedded,
    and the statements below take [plain_keys] as a hypothesis. *)
Definition group_doc (spec : group_spec) (grouped : table) (doc : obj) : table :=
  let key := group_key spec doc in
  let k := to_string key in
  let grouped' :=
    match table_get k grouped with
    | Some _ => grouped
    | None =>
        if truthy (inherited k) then grouped
        else table_put k (seed spec key) grouped
    end in
  match table_get k grouped' with
  | Some acc => table_put k (accumulate spec doc acc) grouped'
  | None => grouped'
  end.

Definition grouped (spec : group_spec) (result : list obj) : table :=
  fold_left (group_doc spec) result empty_table.

Definition run_stage (result : list obj) (st : stage) : list obj :=
  match s_match st with
  | Some query => List.filter (fun doc => matches doc query) result
  | None =>
      match s_group st with
      | Some spec => table_values (grouped spec result)
      | None => result
      end
  end.

Definition run_pipeline (pipeline : list stage) (result : list obj) : list obj :=
  fold_left run_stage pipeline result.

Definition aggregate (pipeline : list stage) (s : store) : list obj :=
  run_pipeline pipeline (read_all s).

End Bolt.

(** ** Statements of the specification, as definitions *)

Module Spec.
Import JS Store.

(** The values of the spec's data model: string, number, boolean, null or
    nested value. *)
Definition data_value (v : value) : bool :=
  match v with
  | VUndefined | VObject (Builtin _) _ => false
  | _ => true
  end.

Definition is_number (v : value) : bool :=
  match v with
  | VNum _ => true
  | _ => false
  end.

(** "adding [document[field]] treating missing/non-numeric as 0" *)
Definition numeric_or_zero (v : value) : float :=
  match v with
  | VNum x => x
  | _ => 0%float
  end.

Definition sum_as_specified (field : string) (query : obj) (s : store) : value :=
  VNum (fold_left (fun acc doc => (acc + numeric_or_zero (get doc field))%float)
          (Bolt.find query s) 0%float).

(** What [doc[field] || 0] adds when [doc[field]] is a number or falsy. *)
Definition addend (v : value) : float :=
  match v with
  | VNum x => if truthy v then x else 0%float
  | _ => 0%float
  end.

Definition number_or_falsy (v : value) : bool :=
  is_number v || negb (truthy v).

(** The string under which a [$group] stage files a document. *)
Definition key_string (spec : Bolt.group_spec) (doc : obj) : string :=
  to_string (Bolt.group_key spec doc).

(** No document is filed under the name of a property of
    [Object.prototype], so that the stage touches no built-in object. *)
Definition plain_keys (spec : Bolt.group_spec) (result : list obj) : bool :=
  forallb (fun doc => negb (is_inherited (key_string spec doc))) result.

(** The documents of the working set filed under [k], in order. *)
Definition partition (spec : Bolt.group_spec) (k : string) (result : list obj)
    : list obj :=
  List.filter (fun doc => String.eqb (key_string spec doc) k) result.

(** The accumulator of a partition: seeded from its first document, then fed
    every document in order. *)
Definition accumulator (spec : Bolt.group_spec) (part : list obj) : option obj :=
  match part with
  | [] => None
  | first :: _ =>
      Some (fold_left (fun acc doc => Bolt.accumulate spec doc acc) part
              (Bolt.seed spec (Bolt.group_key spec first)))
  end.

(** The distinct strings of a list, in the order of their first occurrence. *)
Definition add_new (l : list string) (k : string) : list string :=
  if existsb (String.eqb k) l then l else l ++ [k].

Definition first_seen (l : list string) : list string := fold_left add_new l [].

(** The array indices of a list, ascending and without repetition. *)
Fixpoint insert_index (i : N) (l : list N) : list N :=
  match l with
  | [] => [i]
  | j :: t =>
      if (i <? j)%N then i :: j :: t
      else if (i =? j)%N then j :: t
      else j :: insert_index i t
  end.

Definition ascending (l : list N) : list N :=
  fold_left (fun l i => insert_index i l) l [].

(** The decimal string of an array index. *)
Definition index_string (i : N) : string := digits_of (Z.of_N i).

(** A key string that names an own property of the table, outside the array
    indices. *)
Definition files_named (k : string) : bool :=
  negb (is_inherited k) &&
  match Bolt.array_index k with
  | Some _ => false
  | None => true
  end.

(** The key strings of a working set, in the order of the documents. *)
Definition key_strings (spec : Bolt.group_spec) (result : list obj) : list string :=
  map (key_string spec) result.

(** The order in which [Object.values] lists the own properties created
    under the given keys: array indices ascending, then the other keys by
    first occurrence. *)
Definition own_property_order (ks : list string) : list string :=
  map index_string (ascending (omap Bolt.array_index ks))
  ++ first_seen (List.filter files_named ks).

(** "the sum over the partition of the documents' numeric values" *)
Definition total_from (start : float) (field : string) (part : list obj) : float :=
  fold_left (fun acc doc => (acc + numeric_or_zero (get doc field))%float) part start.

Definition is_plus_zero (a : float) : bool :=
  match Prim2SF a with
  | S754_zero false => true
  | _ => false
  end.

(** No running total that [total || 0] would replace (NaN or -0) is met
    before the last addition. *)
Fixpoint totals_kept (start : float) (field : string) (part : list obj) : bool :=
  match part with
  | [] => true
  | doc :: rest =>
      (truthy (VNum start) || is_plus_zero start)
      && totals_kept (start + numeric_or_zero (get doc field)) field rest
  end.

(** A value whose conversion by [+] is a string: a non-empty string or a
    nested value. *)
Definition texty (v : value) : bool :=
  match v with
  | VStr s => negb (String.eqb s "")
  | VObject _ _ => true
  | _ => false
  end.

(** One step of the running total of a declared field in a [$group] stage. *)
Definition total_step (field : string) (total : value) (doc : obj) : value :=
  js_add (js_or total (VNum 0)) (get doc field).

(** The numbers [g], [g + 1], ..., [g + n - 1] as values. *)
Definition numbers_from (g : Z) (n : nat) : list value :=
  map (fun i => VNum (number_of_Z (g + Z.of_nat i))) (seq 0 n).

(** The fields a [$group] stage declares. *)
Definition declared (spec : Bolt.group_spec) (field : string) : Prop :=
  In field (keys (Bolt.gs_object spec)) /\ field <> "_id" /\ field <> "initial".

(** No [$group] stage of the pipeline files a document of the working set
    it receives under the name of a property of [Object.prototype]. *)
Fixpoint plain_pipeline (pipeline : list Bolt.stage) (result : list obj) : bool :=
  match pipeline with
  | [] => true
  | st :: rest =>
      match Bolt.s_match st, Bolt.s_group st with
      | None, Some spec => plain_keys spec result
      | _, _ => true
      end
      && plain_pipeline rest (Bolt.run_stage result st)
  end.

End Spec.

(** ** Documents used in examples *)

Module Examples.
Import JS Store.

Definition document (l : list (string * value)) : obj := list_to_map l.

(** The three documents of the README. *)
Definition alice : obj :=
  document [("_id", VNum 1); ("name", VStr "Alice"); ("age", VNum 25)].
Definition bob : obj :=
  document [("_id", VNum 2); ("name", VStr "Bob"); ("age", VNum 30)].
Definition charlie : obj :=
  document [("_id", VNum 3); ("name", VStr "Charlie"); ("age", VNum 35)].

Definition people : store := [alice; bob; charlie].

(** The same people, stored eldest first. *)
Definition eldest_first : store :=
  [ document [("_id", VNum 1); ("name", VStr "Charlie"); ("age", VNum 35)];
    document [("_id", VNum 2); ("name", VStr "Bob"); ("age", VNum 30)];
    document [("_id", VNum 3); ("name", VStr "Alice"); ("age", VNum 25)] ].

(** [{ $gte: 30 }], an object the caller wrote. *)
Definition gte30 : value := VObject (Held 0) "[object Object]".

(** Two people of one city, and a patch that moves to Rome and names record
    2. *)
Definition parisians : store :=
  [ document [("_id", VNum 1); ("name", VStr "Alice"); ("city", VStr "Paris")];
    document [("_id", VNum 2); ("name", VStr "Bob"); ("city", VStr "Paris")] ].

Definition in_paris : obj := document [("city", VStr "Paris")].

Definition to_rome_as_2 : obj := document [("_id", VNum 2); ("city", VStr "Rome")].

(** Pay slips, and [{ $group: { _id: 'dept', pay: 0 } }]. *)
Definition slip1 : obj :=
  document [("_id", VNum 1); ("dept", VStr "ops"); ("pay", VNum 10)].
Definition slip2 : obj :=
  document [("_id", VNum 2); ("dept", VStr "dev"); ("pay", VNum 5)].
Definition slip3 : obj :=
  document [("_id", VNum 3); ("dept", VStr "ops"); ("pay", VNum 7)].

Definition slips : store := [slip1; slip2; slip3].

Definition by_dept : Bolt.group_spec :=
  {| Bolt.gs_object := document [("_id", VStr "dept"); ("pay", VNum 0)];
     Bolt.gs_initial := ∅ |}.

(** A slip whose pay was stored as a string. *)
Definition slips_as_text : store :=
  [ document [("_id", VNum 1); ("dept", VStr "ops"); ("pay", VStr "10")] ].

(** A code stored once as a number and once as a string. *)
Definition code1 : obj := document [("_id", VNum 1); ("code", VNum 1)].
Definition code2 : obj := document [("_id", VNum 2); ("code", VStr "1")].

Definition codes : store := [code1; code2].

(** [{ $group: { _id: 'code' } }] *)
Definition by_code : Bolt.group_spec :=
  {| Bolt.gs_object := document [("_id", VStr "code")]; Bolt.gs_initial := ∅ |}.

(** [{ $group: { _id: 'code', initial: { _id: 'all' } } }] *)
Definition by_code_as_all : Bolt.group_spec :=
  {| Bolt.gs_object :=
       document [("_id", VStr "code"); ("initial", VObject (Held 1) "[object Object]")];
     Bolt.gs_initial := document [("_id", VStr "all")] |}.

(** [{ $group: { _id: 'age' } }] *)
Definition by_age : Bolt.group_spec :=
  {| Bolt.gs_object := document [("_id", VStr "age")]; Bolt.gs_initial := ∅ |}.

(** A stage such as [{ $sort: ... }] or [{ match: ... }]. *)
Definition other_stage : Bolt.stage :=
  {| Bolt.s_match := None; Bolt.s_group := None |}.

(** An empty database, and a document that brings no [_id]. *)
Definition fresh : database := {| records := []; generator := 1 |}.

Definition dana : obj := document [("name", VStr "Dana"); ("age", VNum 41)].

(** The README's people with the generator past them. *)
Definition people_db : database := {| records := people; generator := 4 |}.

(** Pay slips, the second of which has no pay. *)
Definition slips_with_gap : store :=
  [ slip1;
    document [("_id", VNum 2); ("dept", VStr "ops")];
    slip3 ].

End Examples.

(** * Properties *)

Import JS Store Spec.

(** ** Lists and maps *)

Lemma forallb_false_intro {A} (f : A -> bool) (l : list A) (x : A) :
  In x l -> f x = false -> forallb f l = false.
Proof.
  intros Hin Hx. destruct (forallb f l) eqn:E; [|reflexivity].
  rewrite forallb_forall in E. rewrite (E x Hin) in Hx. discriminate.
Qed.

Lemma filter_nil_intro {A} (f : A -> bool) (l : list A) :
  (forall x, In x l -> f x = false) -> List.filter f l = [].
Proof.
  induction l as [|a l IH]; intros H; [reflexivity|]. simpl.
  rewrite (H a (or_introl eq_refl)). apply IH. intros x Hx. apply H. now right.
Qed.

Lemma in_keys (o : obj) (k : string) : In k (keys o) <-> is_Some (o !! k).
Proof.
  unfold keys. rewrite <- list_elem_of_In, list_elem_of_fmap. split.
  - intros [[k' v] [-> Hin]]. apply elem_of_map_to_list in Hin. now exists v.
  - intros [v Hv]. exists (k, v). split; [reflexivity|].
    now apply elem_of_map_to_list.
Qed.

Lemma get_own (o : obj) (k : string) (v : value) : o !! k = Some v -> get o k = v.
Proof. unfold get. now intros ->. Qed.

Lemma get_missing (o : obj) (k : string) : o !! k = None -> get o k = inherited k.
Proof. unfold get. now intros ->. Qed.

(** ** The matcher *)

Lemma matches_iff (D Q : obj) :
  Bolt.matches D Q = true <->
  forall key, In key (keys Q) -> strict_eq (get D key) (get Q key) = true.
Proof. unfold Bolt.matches. apply forallb_forall. Qed.

Lemma matches_false_at (D Q : obj) (key : string) (v : value) :
  Q !! key = Some v -> strict_eq (get D key) v = false -> Bolt.matches D Q = false.
Proof.
  intros HQ Hne. unfold Bolt.matches. apply forallb_false_intro with (x := key).
  - apply in_keys. now exists v.
  - now rewrite (get_own Q key v HQ).
Qed.

Lemma strict_eq_inherited_data (key : string) (v : value) :
  data_value v = true -> strict_eq (inherited key) v = false.
Proof.
  unfold inherited. destruct (is_inherited key); destruct v as [| | | | |[]]; simpl;
    intros H; try reflexivity; discriminate.
Qed.

(** C6: the matcher holds of a document and a query exactly when, at every
    key of the query, the document's value is strictly equal to the query's;
    it holds of every document for the empty query; a document that lacks a
    field fails any query that holds a value of the data model at that field.
    The embedded predicate is a total function: it yields a boolean on every
    document and query. *)
Theorem matcher_is_conjunctive_strict_equality (D Q : obj) :
  (Bolt.matches D Q = true <->
   forall key, In key (keys Q) -> strict_eq (get D key) (get Q key) = true)
  /\ Bolt.matches D ∅ = true
  /\ (forall key v, D !! key = None -> Q !! key = Some v -> data_value v = true ->
      Bolt.matches D Q = false).
Proof.
  split; [apply matches_iff|]. split; [reflexivity|].
  intros key v HD HQ Hv. apply (matches_false_at D Q key v HQ).
  rewrite (get_missing D key HD). now apply strict_eq_inherited_data.
Qed.

Lemma matcher_is_conjunctive_strict_equality_witness :
  Bolt.matches Examples.alice (Examples.document [("salary", VNum 1)]) = false.
Proof.
  apply (proj2 (proj2 (matcher_is_conjunctive_strict_equality
           Examples.alice (Examples.document [("salary", VNum 1)])))
           "salary" (VNum 1)); reflexivity.
Defined.

(** ** The merge of [update] *)

(** C1, as stated, fails: a patch that holds [_id] replaces the identifier.
    Merging [{ _id: 2 }] into Alice's document gives a document whose [_id]
    is 2, not 1. *)
Lemma merge_takes_id_of_patch :
  let P := Examples.document [("_id", VNum 2)] in
  get Examples.alice "_id" = VNum 1 /\
  get (Bolt.merge Examples.alice P) "_id" = VNum 2 /\
  strict_eq (get (Bolt.merge Examples.alice P) "_id") (get Examples.alice "_id") = false.
Proof. repeat split. Qed.

(** C1, amended: the merged document keeps the [_id] of the document when
    the patch has no [_id] field; when the patch has one, the merged
    document carries the patch's value. *)
Theorem merge_id (D P : obj) :
  (P !! "_id" = None -> get (Bolt.merge D P) "_id" = get D "_id")
  /\ (forall v, P !! "_id" = Some v -> get (Bolt.merge D P) "_id" = v).
Proof.
  unfold Bolt.merge, get. split.
  - intros HP. now rewrite lookup_union_r.
  - intros v HP. now rewrite (lookup_union_Some_l P D "_id" v HP).
Qed.

Lemma merge_id_witness :
  get (Bolt.merge Examples.alice (Examples.document [("age", VNum 26)])) "_id"
  = get Examples.alice "_id".
Proof.
  apply (proj1 (merge_id Examples.alice (Examples.document [("age", VNum 26)]))).
  reflexivity.
Defined.

(** ** [sum] *)

(** C3, as stated, fails: a value that is neither a number nor falsy is not
    counted as 0.  With Alice's age stored as the string ["26"], [sum]
    yields the string ["026"], where the total as specified is 0. *)
Lemma sum_concatenates_strings :
  let s := [Examples.document [("_id", VNum 1); ("age", VStr "26")]] in
  Bolt.sum "age" ∅ s = VStr "026" /\ sum_as_specified "age" ∅ s = VNum 0.
Proof. split; vm_compute; reflexivity. Qed.

Lemma sum_fold (field : string) (docs : list obj) (acc : float) :
  forallb (fun doc => number_or_falsy (get doc field)) docs = true ->
  fold_left (fun acc doc => js_add acc (js_or (get doc field) (VNum 0))) docs (VNum acc)
  = VNum (fold_left (fun acc doc => (acc + addend (get doc field))%float) docs acc).
Proof.
  revert acc. induction docs as [|doc docs IH]; intros acc H; [reflexivity|].
  simpl in H. apply andb_prop in H as [Hdoc Hdocs]. simpl.
  replace (js_add (VNum acc) (js_or (get doc field) (VNum 0)))
    with (VNum (acc + addend (get doc field))); [now apply IH|].
  unfold number_or_falsy, js_or, addend in *.
  destruct (get doc field) as [| |[]|x|s|r sh]; try reflexivity; try discriminate.
  - destruct (truthy (VNum x)); reflexivity.
  - simpl in *. destruct (String.eqb s ""); [reflexivity|discriminate].
Qed.

(** C3, amended: [sum(f, Q)] filters the documents with the matcher on [Q]
    and adds each matched document's value at [f], a missing or falsy value
    (null, false, 0, NaN, the empty string) counting as 0, as long as every
    matched document holds a number or a falsy value at [f]. *)
Theorem sum_adds_numbers (field : string) (Q : obj) (s : store) :
  forallb (fun doc => number_or_falsy (get doc field)) (Bolt.find Q s) = true ->
  Bolt.sum field Q s
  = VNum (fold_left (fun acc doc => (acc + addend (get doc field))%float)
            (Bolt.find Q s) 0%float).
Proof. intros H. unfold Bolt.sum. now apply sum_fold. Qed.

Lemma sum_adds_numbers_witness : Bolt.sum "age" ∅ Examples.people = VNum 90.
Proof. rewrite (sum_adds_numbers "age" ∅ Examples.people); reflexivity. Defined.

(** ** Stages of [aggregate] *)

Lemma clone_lookup (r : obj) (k : string) :
  clone r !! k = clone_value <$> r !! k.
Proof. unfold clone. apply lookup_fmap. Qed.

Lemma strict_eq_clone_held (r : obj) (key : string) (n : nat) (shown : string) :
  strict_eq (get (clone r) key) (VObject (Held n) shown) = false.
Proof.
  unfold get. rewrite clone_lookup. destruct (r !! key) as [v|]; simpl.
  - destruct v as [| | | | |[]]; reflexivity.
  - unfold inherited. destruct (is_inherited key); reflexivity.
Qed.

(** C4, as stated, fails: a [$match] stage whose query holds an operator
    object lets no stored document through.  On the three documents of the
    README, [{ $match: { age: { $gte: 30 } } }] leaves nothing. *)
Lemma match_operator_object_drops_all :
  let pipeline := [Bolt.match_stage (Examples.document [("age", Examples.gte30)])] in
  Bolt.aggregate [] Examples.people = Examples.people /\
  Bolt.aggregate pipeline Examples.people = [].
Proof. split; vm_compute; reflexivity. Qed.

(** C4, amended: a [$match] stage whose query maps a field to an operator
    object keeps only the documents that hold that very object at the field,
    so it lets through no document read from the store; a [$match] stage
    whose query maps a single field to a value keeps exactly the documents
    whose value at the field is strictly equal to it. *)
Theorem match_stage_is_strict_equality (key : string) (n : nat) (shown : string)
    (Q : obj) (v : value) (result : list obj) (s : store) :
  Q !! key = Some (VObject (Held n) shown) ->
  (forall doc, In doc (Bolt.run_stage result (Bolt.match_stage Q)) ->
     exists shown', get doc key = VObject (Held n) shown')
  /\ Bolt.aggregate [Bolt.match_stage Q] s = []
  /\ Bolt.run_stage result (Bolt.match_stage {[ key := v ]})
     = List.filter (fun doc => strict_eq (get doc key) v) result.
Proof.
  intros HQ. split; [|split].
  - intros doc Hin. simpl in Hin. apply filter_In in Hin as [_ Hm].
    rewrite matches_iff in Hm.
    assert (Hk : In key (keys Q)) by (apply in_keys; eauto).
    specialize (Hm key Hk). rewrite (get_own Q key _ HQ) in Hm.
    destruct (get doc key) as [| | | | |[| m |]]; try discriminate.
    simpl in Hm. apply Nat.eqb_eq in Hm as ->. eauto.
  - unfold Bolt.aggregate, Bolt.run_pipeline. simpl. apply filter_nil_intro.
    intros doc Hin. unfold read_all in Hin. apply in_map_iff in Hin as [r [<- _]].
    apply (matches_false_at _ Q key _ HQ). apply strict_eq_clone_held.
  - simpl. apply filter_ext. intros doc. unfold Bolt.matches, keys.
    rewrite map_to_list_singleton. simpl.
    rewrite (get_own {[ key := v ]} key v (lookup_singleton_eq key v)).
    apply andb_true_r.
Qed.

Lemma match_stage_is_strict_equality_witness :
  Bolt.aggregate [Bolt.match_stage (Examples.document [("age", Examples.gte30)])]
    Examples.people = [].
Proof.
  apply (match_stage_is_strict_equality "age" 0 "[object Object]"
           (Examples.document [("age", Examples.gte30)]) (VNum 30) [] Examples.people).
  reflexivity.
Defined.

(** ** Keys of the store *)

Lemma SFcompare_antisym (a b : spec_float) :
  SFcompare b a = option_map CompOpp (SFcompare a b).
Proof.
  destruct a as [s1|s1| |s1 m1 e1], b as [s2|s2| |s2 m2 e2]; simpl;
    try reflexivity; try (destruct s1; reflexivity); try (destruct s2; reflexivity);
    try (destruct s1, s2; reflexivity).
  pose proof (Pos.compare_cont_antisym m1 m2 Eq) as Hm. simpl in Hm.
  destruct s1, s2; simpl; try reflexivity;
    rewrite (Z.compare_antisym e1 e2); destruct (e1 ?= e2)%Z; simpl; try reflexivity;
    rewrite <- Hm; destruct (Pos.compare_cont Eq m1 m2); reflexivity.
Qed.

Lemma float_eqb_sym (x y : float) : PrimFloat.eqb x y = PrimFloat.eqb y x.
Proof.
  rewrite !FloatAxioms.eqb_spec. unfold SFeqb.
  rewrite (SFcompare_antisym (Prim2SF x) (Prim2SF y)).
  destruct (SFcompare (Prim2SF x) (Prim2SF y)) as [[]|]; reflexivity.
Qed.

Lemma key_eqb_sym (a b : key) : key_eqb a b = key_eqb b a.
Proof.
  destruct a, b; simpl; try reflexivity.
  - apply float_eqb_sym.
  - apply String.eqb_sym.
Qed.

Lemma key_eqb_refl (v : value) (k : key) :
  key_of_value v = Some k -> key_eqb k k = true.
Proof.
  destruct v; simpl; try discriminate.
  - unfold PrimFloat.is_nan. destruct (PrimFloat.eqb x x) eqn:E; simpl; [|discriminate].
    intros [= <-]. exact E.
  - intros [= <-]. apply String.eqb_refl.
Qed.

Lemma store_ok_key (s : store) (r : obj) :
  store_ok s = true -> In r s -> exists k, record_key r = Some k.
Proof.
  induction s as [|a s IH]; simpl; [tauto|]. intros Hok [<-|Hin].
  - destruct (record_key a); [eauto|discriminate].
  - destruct (record_key a); [|discriminate].
    apply andb_prop in Hok as [_ Hok]. now apply IH.
Qed.

(** ** [update] and [delete] write through a handle that is no longer active *)

Lemma update_doc_rejected (P : obj) (docs : list obj) (s : store) :
  fold_left (Bolt.update_doc (resumed_elsewhere (Bolt._getTransaction Readwrite)) P)
    docs (s, None) = (s, None).
Proof.
  induction docs as [|d docs IH]; [reflexivity|exact IH].
Qed.

Lemma delete_doc_rejected (docs : list obj) (s : store) :
  fold_left (Bolt.delete_doc (resumed_elsewhere (Bolt._getTransaction Readwrite)))
    docs (s, None) = (s, None).
Proof.
  induction docs as [|d docs IH]; [reflexivity|exact IH].
Qed.

(** What [update] comes to: the store is left as it is, and the promise is
    rejected as soon as there is a document to write. *)
Lemma update_outcome (Q P : obj) (s : store) :
  Bolt.update Q P s
  = (s, match Bolt.find Q s with [] => Some [] | _ :: _ => None end).
Proof.
  unfold Bolt.update. destruct (Bolt.find Q s) as [|d docs]; [reflexivity|].
  exact (update_doc_rejected P docs s).
Qed.

Lemma delete_outcome (Q : obj) (s : store) :
  Bolt.delete Q s
  = (s, match Bolt.find Q s with [] => Some 0 | _ :: _ => None end).
Proof.
  unfold Bolt.delete. destruct (Bolt.find Q s) as [|d docs]; [reflexivity|].
  exact (delete_doc_rejected docs s).
Qed.

(** C8: [delete({ city: 'Paris' })] on a store that holds two people of
    Paris is rejected and deletes nothing: the store is as it was, and
    [find] with the same query still returns both. *)
Theorem delete_leaves_the_matches :
  Bolt.delete Examples.in_paris Examples.parisians = (Examples.parisians, None)
  /\ Bolt.find Examples.in_paris
       (Bolt.delete Examples.in_paris Examples.parisians).1
     = read_all Examples.parisians.
Proof. split; vm_compute; reflexivity. Qed.

(** C9: running [update(Q, P)] a second time leaves the store as the first
    run left it, and settles as the first run did; [update] leaves the store
    as it found it. *)
Theorem update_is_idempotent (Q P : obj) (s : store) :
  (Bolt.update Q P (Bolt.update Q P s).1).1 = (Bolt.update Q P s).1
  /\ Bolt.update Q P (Bolt.update Q P s).1 = Bolt.update Q P s.
Proof.
  assert (H : (Bolt.update Q P s).1 = s) by now rewrite update_outcome.
  rewrite H. split; [exact H|reflexivity].
Qed.

Lemma clone_clone (o : obj) : clone (clone o) = clone o.
Proof.
  unfold clone. rewrite <- map_fmap_compose. apply map_fmap_ext.
  intros k v _. now destruct v.
Qed.

(** ** The table of a [$group] stage *)

Lemma truthy_inherited (k : string) : truthy (inherited k) = is_inherited k.
Proof. unfold inherited. now destruct (is_inherited k). Qed.

Lemma array_index_sound (k : string) (i : N) :
  Bolt.array_index k = Some i -> k = digits_of (Z.of_N i).
Proof.
  unfold Bolt.array_index, digits_of. rewrite N2Z.id.
  destruct (NilZero.uint_of_string k) as [u|]; [|discriminate].
  destruct (String.eqb _ k) eqn:E; simpl; [|discriminate].
  destruct (N.ltb _ _); [|discriminate].
  intros [= <-]. symmetry. now apply String.eqb_eq.
Qed.

Lemma array_index_inj (k k' : string) (i : N) :
  Bolt.array_index k = Some i -> Bolt.array_index k' = Some i -> k = k'.
Proof.
  intros H H'. apply array_index_sound in H, H'. congruence.
Qed.

Lemma get_put_indexed (i j : N) (v : obj) (l : list (N * obj)) :
  Bolt.get_indexed j (Bolt.put_indexed i v l)
  = if (j =? i)%N then Some v else Bolt.get_indexed j l.
Proof.
  induction l as [|[i0 w] l IH]; simpl.
  - reflexivity.
  - destruct (N.ltb_spec i i0) as [Hlt|Hge]; simpl.
    + reflexivity.
    + destruct (N.eqb_spec i i0) as [->|Hne]; simpl.
      * destruct (N.eqb_spec j i0); reflexivity.
      * rewrite IH. destruct (N.eqb_spec j i0) as [->|]; [|reflexivity].
        destruct (N.eqb_spec i0 i); [congruence|reflexivity].
Qed.

Lemma get_put_named (k k' : string) (v : obj) (l : list (string * obj)) :
  Bolt.get_named k' (Bolt.put_named k v l)
  = if String.eqb k' k then Some v else Bolt.get_named k' l.
Proof.
  induction l as [|[k0 w] l IH]; simpl.
  - reflexivity.
  - destruct (String.eqb_spec k k0) as [->|Hne]; simpl.
    + destruct (String.eqb_spec k' k0); reflexivity.
    + rewrite IH. destruct (String.eqb_spec k' k0) as [->|]; [|reflexivity].
      destruct (String.eqb_spec k0 k); [congruence|reflexivity].
Qed.

Lemma table_get_put (k k' : string) (v : obj) (t : Bolt.table) :
  Bolt.table_get k' (Bolt.table_put k v t)
  = if String.eqb k' k then Some v else Bolt.table_get k' t.
Proof.
  unfold Bolt.table_get, Bolt.table_put.
  destruct (String.eqb_spec k' k) as [->|Hne].
  - destruct (Bolt.array_index k) as [i|]; simpl.
    + now rewrite get_put_indexed, N.eqb_refl.
    + now rewrite get_put_named, String.eqb_refl.
  - destruct (Bolt.array_index k) as [i|] eqn:Hk,
             (Bolt.array_index k') as [j|] eqn:Hk'; simpl; try reflexivity.
    + rewrite get_put_indexed. destruct (N.eqb_spec j i) as [->|]; [|reflexivity].
      destruct Hne. eapply array_index_inj; eassumption.
    + rewrite get_put_named. destruct (String.eqb_spec k' k); [contradiction|reflexivity].
Qed.

Lemma group_doc_get (spec : Bolt.group_spec) (t : Bolt.table) (d : obj) (k : string) :
  Bolt.table_get k (Bolt.group_doc spec t d)
  = if String.eqb k (key_string spec d) then
      match Bolt.table_get k t with
      | Some acc => Some (Bolt.accumulate spec d acc)
      | None =>
          if is_inherited k then None
          else Some (Bolt.accumulate spec d (Bolt.seed spec (Bolt.group_key spec d)))
      end
    else Bolt.table_get k t.
Proof.
  unfold Bolt.group_doc. fold (key_string spec d). set (kd := key_string spec d).
  rewrite truthy_inherited.
  destruct (String.eqb_spec k kd) as [->|Hne].
  - destruct (Bolt.table_get kd t) as [acc|] eqn:Hget.
    + rewrite Hget. now rewrite table_get_put, String.eqb_refl.
    + destruct (is_inherited kd).
      * now rewrite Hget.
      * rewrite table_get_put, String.eqb_refl.
        now rewrite table_get_put, String.eqb_refl.
  - assert (Hother : forall v t', Bolt.table_get k (Bolt.table_put kd v t')
                                  = Bolt.table_get k t').
    { intros v t'. rewrite table_get_put.
      destruct (String.eqb_spec k kd); [contradiction|reflexivity]. }
    destruct (Bolt.table_get kd t) as [acc|] eqn:Hget.
    + rewrite Hget. apply Hother.
    + destruct (is_inherited kd).
      * now rewrite Hget.
      * rewrite table_get_put, String.eqb_refl. now rewrite !Hother.
Qed.

Lemma fold_left_snoc {A B} (f : A -> B -> A) (l : list B) (x : B) (a : A) :
  fold_left f (l ++ [x]) a = f (fold_left f l a) x.
Proof. now rewrite fold_left_app. Qed.

(** The accumulator filed under a key is the one of its partition. *)
Lemma grouped_get (spec : Bolt.group_spec) (result : list obj) (k : string) :
  Bolt.table_get k (Bolt.grouped spec result)
  = if is_inherited k then None else accumulator spec (partition spec k result).
Proof.
  unfold Bolt.grouped. induction result as [|d result IH] using rev_ind.
  - simpl. unfold Bolt.table_get. simpl.
    destruct (Bolt.array_index k), (is_inherited k); reflexivity.
  - rewrite fold_left_snoc, group_doc_get, IH. unfold partition.
    rewrite List.filter_app. simpl. rewrite (String.eqb_sym k).
    destruct (String.eqb (key_string spec d) k); [|now rewrite app_nil_r].
    destruct (is_inherited k); [reflexivity|].
    destruct (List.filter _ result) as [|first rest]; [reflexivity|].
    simpl. now rewrite fold_left_snoc.
Qed.

Lemma plain_partition (spec : Bolt.group_spec) (result : list obj) (k : string)
    (first : obj) (rest : list obj) :
  plain_keys spec result = true -> partition spec k result = first :: rest ->
  is_inherited k = false.
Proof.
  intros Hplain Hpart.
  assert (Hin : In first (partition spec k result)) by (rewrite Hpart; now left).
  unfold partition in Hin. apply filter_In in Hin as [Hin Hk].
  apply String.eqb_eq in Hk as <-. unfold plain_keys in Hplain.
  rewrite forallb_forall in Hplain. now apply negb_true_iff, Hplain.
Qed.

Lemma table_get_in_values (k : string) (acc : obj) (t : Bolt.table) :
  Bolt.table_get k t = Some acc -> In acc (Bolt.table_values t).
Proof.
  unfold Bolt.table_get, Bolt.table_values. intros H. apply in_or_app.
  destruct (Bolt.array_index k) as [i|].
  - left. induction (Bolt.indexed t) as [|[j w] l IH]; simpl in *; [discriminate|].
    destruct (N.eqb i j); [injection H as ->; now left|right; now apply IH].
  - right. induction (Bolt.named t) as [|[j w] l IH]; simpl in *; [discriminate|].
    destruct (String.eqb k j); [injection H as ->; now left|right; now apply IH].
Qed.

(** ** The accumulator of a group *)

Lemma lookup_assign_other (acc : obj) (g f : string) (v : value) :
  g <> f -> JS.assign acc g v !! f = acc !! f.
Proof.
  intros Hne. unfold JS.assign.
  destruct (acc !! g); [|destruct (String.eqb g "__proto__")];
    try reflexivity; now apply lookup_insert_ne.
Qed.

Lemma get_assign_other (acc : obj) (g f : string) (v : value) :
  g <> f -> get (JS.assign acc g v) f = get acc f.
Proof. intros Hne. unfold get. now rewrite lookup_assign_other. Qed.

Lemma get_assign_same (acc : obj) (f : string) (v : value) :
  f <> "__proto__" -> get (JS.assign acc f v) f = v.
Proof.
  intros Hne. unfold get, JS.assign.
  destruct (acc !! f); [|destruct (String.eqb_spec f "__proto__"); [contradiction|]];
    now rewrite lookup_insert_eq.
Qed.

Lemma accumulate_id (spec : Bolt.group_spec) (d acc : obj) :
  Bolt.accumulate spec d acc !! "_id" = acc !! "_id".
Proof.
  unfold Bolt.accumulate. revert acc.
  induction (keys (Bolt.gs_object spec)) as [|g L IH]; intros acc; [reflexivity|].
  simpl. rewrite IH. destruct (String.eqb_spec g "_id") as [->|Hne]; [reflexivity|].
  simpl. destruct (negb (String.eqb g "initial")); [|reflexivity].
  now apply lookup_assign_other.
Qed.

Lemma accumulate_get_fold (d : obj) (f : string) (L : list string) (acc : obj) :
  NoDup L -> f <> "_id" -> f <> "initial" -> f <> "__proto__" ->
  get (fold_left
         (fun acc field =>
            if negb (String.eqb field "_id") && negb (String.eqb field "initial")
            then JS.assign acc field (js_add (js_or (get acc field) (VNum 0)) (get d field))
            else acc) L acc) f
  = if existsb (String.eqb f) L
    then js_add (js_or (get acc f) (VNum 0)) (get d f)
    else get acc f.
Proof.
  intros Hnd Hid Hin Hpr. revert acc.
  induction L as [|g L IH]; intros acc; [reflexivity|].
  apply NoDup_cons in Hnd as [Hg Hnd]. simpl. rewrite (IH Hnd).
  destruct (String.eqb_spec f g) as [<-|Hne]; simpl.
  - assert (Hex : existsb (String.eqb f) L = false).
    { destruct (existsb (String.eqb f) L) eqn:E; [|reflexivity].
      apply existsb_exists in E as [x [Hx Hfx]]. apply String.eqb_eq in Hfx as <-.
      destruct Hg. now apply list_elem_of_In. }
    rewrite Hex.
    destruct (String.eqb_spec f "_id"); [contradiction|].
    destruct (String.eqb_spec f "initial"); [contradiction|]. simpl.
    now apply get_assign_same.
  - destruct (negb (String.eqb g "_id") && negb (String.eqb g "initial"));
      [|reflexivity].
    rewrite !get_assign_other by congruence. reflexivity.
Qed.

Lemma accumulate_get (spec : Bolt.group_spec) (d acc : obj) (f : string) :
  In f (keys (Bolt.gs_object spec)) -> f <> "_id" -> f <> "initial" -> f <> "__proto__" ->
  get (Bolt.accumulate spec d acc) f = js_add (js_or (get acc f) (VNum 0)) (get d f).
Proof.
  intros Hf Hid Hin Hpr. unfold Bolt.accumulate.
  rewrite accumulate_get_fold; try assumption.
  - assert (Hex : existsb (String.eqb f) (keys (Bolt.gs_object spec)) = true).
    { apply existsb_exists. exists f. split; [exact Hf|apply String.eqb_refl]. }
    now rewrite Hex.
  - unfold keys. apply NoDup_fst_map_to_list.
Qed.

Lemma accumulate_all_get (spec : Bolt.group_spec) (part : list obj) (acc : obj)
    (f : string) :
  In f (keys (Bolt.gs_object spec)) -> f <> "_id" -> f <> "initial" -> f <> "__proto__" ->
  get (fold_left (fun acc doc => Bolt.accumulate spec doc acc) part acc) f
  = fold_left (fun v doc => js_add (js_or v (VNum 0)) (get doc f)) part (get acc f).
Proof.
  intros Hf Hid Hin Hpr. revert acc.
  induction part as [|d part IH]; intros acc; [reflexivity|].
  simpl. rewrite IH. now rewrite accumulate_get.
Qed.

Lemma accumulate_all_id (spec : Bolt.group_spec) (part : list obj) (acc : obj) :
  fold_left (fun acc doc => Bolt.accumulate spec doc acc) part acc !! "_id"
  = acc !! "_id".
Proof.
  revert acc. induction part as [|d part IH]; intros acc; [reflexivity|].
  simpl. rewrite IH. apply accumulate_id.
Qed.

Lemma get_seed (spec : Bolt.group_spec) (key : value) (f : string) :
  f <> "_id" -> get (Bolt.seed spec key) f = get (Bolt.gs_initial spec) f.
Proof.
  intros Hne. unfold get, Bolt.seed. rewrite lookup_union.
  rewrite (lookup_singleton_ne "_id" f key) by congruence.
  now destruct (Bolt.gs_initial spec !! f).
Qed.

Lemma plus_zero_eq (a : float) : is_plus_zero a = true -> a = 0%float.
Proof.
  unfold is_plus_zero. intros H. rewrite <- (FloatAxioms.SF2Prim_Prim2SF a).
  destruct (Prim2SF a) as [[]| | |]; try discriminate. reflexivity.
Qed.

Lemma js_or_kept (a : float) :
  truthy (VNum a) || is_plus_zero a = true -> js_or (VNum a) (VNum 0) = VNum a.
Proof.
  unfold js_or. destruct (truthy (VNum a)); [reflexivity|]. simpl.
  intros H. now rewrite (plus_zero_eq a H).
Qed.

Lemma numeric_fold (f : string) (part : list obj) (a : float) :
  forallb (fun doc => is_number (get doc f)) part = true ->
  totals_kept a f part = true ->
  fold_left (fun v doc => js_add (js_or v (VNum 0)) (get doc f)) part (VNum a)
  = VNum (total_from a f part).
Proof.
  revert a. induction part as [|d part IH]; intros a Hnum Hkept; [reflexivity|].
  simpl in *. apply andb_prop in Hnum as [Hd Hnum]. apply andb_prop in Hkept as [Ha Hkept].
  rewrite (js_or_kept a Ha). destruct (get d f); try discriminate. simpl in *.
  unfold total_from in *. simpl. now apply IH.
Qed.

Lemma js_or_addend (v : value) :
  number_or_falsy v = true -> js_or v (VNum 0) = VNum (addend v).
Proof.
  unfold number_or_falsy, js_or, addend.
  destruct v as [| |[]|x|s|r sh]; simpl; try reflexivity; try discriminate.
  - destruct (negb _); reflexivity.
  - destruct (String.eqb s ""); [reflexivity|discriminate].
Qed.

Lemma addend_kept (v : value) : truthy (VNum (addend v)) || is_plus_zero (addend v) = true.
Proof.
  unfold addend. destruct v; try reflexivity.
  destruct (truthy (VNum x)) eqn:E; [now rewrite E|reflexivity].
Qed.

(** C2, as stated, fails: a document value that is not a number is not
    counted as 0.  With the pay of the one slip of a department stored as the
    string ["10"], the emitted group holds the string ["010"], where the sum
    as specified is 0. *)
Lemma group_concatenates_strings :
  map (fun acc => get acc "pay")
    (Bolt.aggregate [Bolt.group_stage Examples.by_dept] Examples.slips_as_text)
  = [VStr "010"]
  /\ total_from 0 "pay" (partition Examples.by_dept "ops" Examples.slips_as_text) = 0%float.
Proof. split; vm_compute; reflexivity. Qed.

(** C2, amended: in a [$group] stage that files no document under the name
    of a property of [Object.prototype], for every declared accumulator field
    (a key of the group spec other than [_id], [initial] and [__proto__]) and
    every group, when the initial accumulator holds a number or a falsy value
    at the field, every document of the partition holds a number at the field
    and no running total met before the last addition is NaN or -0, the
    emitted group document's value for the field is the initial value (0 when
    falsy) plus the sum over the partition of the documents' values at the
    field. *)
Theorem group_sums_declared_field (spec : Bolt.group_spec) (result : list obj)
    (k : string) (first : obj) (rest : list obj) (field : string) :
  plain_keys spec result = true ->
  partition spec k result = first :: rest ->
  In field (keys (Bolt.gs_object spec)) ->
  field <> "_id" -> field <> "initial" -> field <> "__proto__" ->
  number_or_falsy (get (Bolt.gs_initial spec) field) = true ->
  forallb (fun doc => is_number (get doc field)) (first :: rest) = true ->
  totals_kept (addend (get (Bolt.gs_initial spec) field)) field (first :: rest) = true ->
  exists acc,
    Bolt.table_get k (Bolt.grouped spec result) = Some acc
    /\ In acc (Bolt.run_stage result (Bolt.group_stage spec))
    /\ get acc field
       = VNum (total_from (addend (get (Bolt.gs_initial spec) field)) field (first :: rest)).
Proof.
  intros Hplain Hpart Hf Hid Hin Hpr Hinit Hnum Hkept.
  pose proof (plain_partition spec result k first rest Hplain Hpart) as Hk.
  pose proof (grouped_get spec result k) as Hget. rewrite Hk, Hpart in Hget.
  simpl in Hget. eexists. split; [exact Hget|]. split.
  - simpl. eapply table_get_in_values. exact Hget.
  - change (fold_left (fun acc doc => Bolt.accumulate spec doc acc) rest
              (Bolt.accumulate spec first (Bolt.seed spec (Bolt.group_key spec first))))
      with (fold_left (fun acc doc => Bolt.accumulate spec doc acc) (first :: rest)
              (Bolt.seed spec (Bolt.group_key spec first))).
    rewrite accumulate_all_get, get_seed by assumption.
    rewrite <- (numeric_fold field (first :: rest) _ Hnum Hkept).
    simpl. now rewrite (js_or_addend _ Hinit), (js_or_kept _ (addend_kept _)).
Qed.

Lemma group_sums_declared_field_witness :
  exists acc,
    Bolt.table_get "ops" (Bolt.grouped Examples.by_dept Examples.slips) = Some acc
    /\ In acc (Bolt.run_stage Examples.slips (Bolt.group_stage Examples.by_dept))
    /\ get acc "pay"
       = VNum (total_from (addend (get (Bolt.gs_initial Examples.by_dept) "pay")) "pay"
                 [Examples.slip1; Examples.slip3]).
Proof.
  apply (group_sums_declared_field Examples.by_dept Examples.slips "ops"
           Examples.slip1 [Examples.slip3] "pay").
  - vm_compute; reflexivity.
  - vm_compute; reflexivity.
  - vm_compute; tauto.
  - discriminate.
  - discriminate.
  - discriminate.
  - vm_compute; reflexivity.
  - vm_compute; reflexivity.
  - vm_compute; reflexivity.
Defined.

(** ** Groups are filed by string form *)

Lemma seed_id (spec : Bolt.group_spec) (key : value) :
  get (Bolt.seed spec key) "_id"
  = match Bolt.gs_initial spec !! "_id" with
    | Some v => v
    | None => key
    end.
Proof.
  unfold get, Bolt.seed. rewrite lookup_union, lookup_singleton_eq.
  now destruct (Bolt.gs_initial spec !! "_id").
Qed.

(** C10, as stated, fails: the [_id] of the emitted group is not always the
    grouping-key value of its first document.  The number 1 and the string
    ["1"] do fall into one group, but with [initial: { _id: 'all' }] the
    emitted [_id] is ['all']. *)
Lemma group_id_taken_from_initial :
  map (fun acc => get acc "_id")
    (Bolt.aggregate [Bolt.group_stage Examples.by_code_as_all] Examples.codes)
  = [VStr "all"]
  /\ map (Bolt.group_key Examples.by_code_as_all) Examples.codes = [VNum 1; VStr "1"].
Proof. split; vm_compute; reflexivity. Qed.

(** C10, amended: in a [$group] stage that files no document under the name
    of a property of [Object.prototype], the documents whose grouping-key
    values have the same string form [k] are placed into one group, whatever
    the values themselves, the partition being by the string form; the
    emitted group's [_id] is the grouping-key value of the first of these
    documents in the working set, unless the initial accumulator holds an
    [_id], which is then emitted instead. *)
Theorem group_by_string_form (spec : Bolt.group_spec) (result : list obj)
    (k : string) (first : obj) (rest : list obj) :
  plain_keys spec result = true ->
  partition spec k result = first :: rest ->
  (forall doc, In doc result -> key_string spec doc = k -> In doc (first :: rest))
  /\ exists acc,
       Bolt.table_get k (Bolt.grouped spec result) = Some acc
       /\ accumulator spec (first :: rest) = Some acc
       /\ In acc (Bolt.run_stage result (Bolt.group_stage spec))
       /\ get acc "_id"
          = match Bolt.gs_initial spec !! "_id" with
            | Some v => v
            | None => Bolt.group_key spec first
            end.
Proof.
  intros Hplain Hpart.
  pose proof (plain_partition spec result k first rest Hplain Hpart) as Hk. split.
  - intros doc Hin Hdoc. rewrite <- Hpart. unfold partition. apply filter_In.
    split; [exact Hin|]. now apply String.eqb_eq.
  - pose proof (grouped_get spec result k) as Hget. rewrite Hk, Hpart in Hget.
    eexists. split; [exact Hget|]. split; [reflexivity|]. split.
    + simpl. eapply table_get_in_values. exact Hget.
    + unfold get at 1. rewrite accumulate_all_id. apply seed_id.
Qed.

Lemma group_by_string_form_witness :
  exists acc,
    Bolt.table_get "1" (Bolt.grouped Examples.by_code Examples.codes) = Some acc
    /\ accumulator Examples.by_code Examples.codes = Some acc
    /\ In acc (Bolt.run_stage Examples.codes (Bolt.group_stage Examples.by_code))
    /\ get acc "_id" = VNum 1.
Proof.
  refine (proj2 (group_by_string_form Examples.by_code Examples.codes "1"
                   Examples.code1 [Examples.code2] _ _)).
  - vm_compute; reflexivity.
  - vm_compute; reflexivity.
Defined.

(** ** The order of the emitted groups *)

Lemma put_named_keys (k : string) (v : obj) (l : list (string * obj)) :
  (Bolt.put_named k v l).*1 = add_new l.*1 k.
Proof.
  unfold add_new. induction l as [|[k0 w] l IH]; csimpl; [reflexivity|].
  destruct (String.eqb k k0); csimpl; [reflexivity|].
  rewrite IH. now destruct (existsb (String.eqb k) l.*1).
Qed.

Lemma put_indexed_keys (i : N) (v : obj) (l : list (N * obj)) :
  (Bolt.put_indexed i v l).*1 = insert_index i l.*1.
Proof.
  induction l as [|[j w] l IH]; csimpl; [reflexivity|].
  destruct (N.ltb i j); csimpl; [reflexivity|].
  destruct (N.eqb i j); csimpl; [reflexivity|]. now rewrite IH.
Qed.

Lemma existsb_add_new (l : list string) (k : string) :
  existsb (String.eqb k) (add_new l k) = true.
Proof.
  unfold add_new. destruct (existsb (String.eqb k) l) eqn:E; [exact E|].
  rewrite existsb_app. simpl. now rewrite String.eqb_refl, orb_true_r.
Qed.

Lemma add_new_twice (l : list string) (k : string) :
  add_new (add_new l k) k = add_new l k.
Proof. unfold add_new at 1. now rewrite existsb_add_new. Qed.

Lemma insert_index_twice (i : N) (l : list N) :
  insert_index i (insert_index i l) = insert_index i l.
Proof.
  induction l as [|j l IH]; simpl.
  - now rewrite N.ltb_irrefl, N.eqb_refl.
  - destruct (N.ltb i j) eqn:Hlt; simpl.
    + now rewrite N.ltb_irrefl, N.eqb_refl.
    + destruct (N.eqb i j) eqn:Heq; simpl; rewrite Hlt, Heq; [reflexivity|].
      now rewrite IH.
Qed.

Lemma get_named_present (k : string) (l : list (string * obj)) (v : obj) :
  Bolt.get_named k l = Some v -> add_new l.*1 k = l.*1.
Proof.
  unfold add_new. intros H.
  assert (E : existsb (String.eqb k) l.*1 = true); [|now rewrite E].
  induction l as [|[k0 w] l IH]; csimpl in *; [discriminate|].
  destruct (String.eqb k k0); [reflexivity|]. now apply IH.
Qed.

Lemma inherited_not_index (k : string) :
  is_inherited k = true -> Bolt.array_index k = None.
Proof.
  unfold is_inherited. intros H. apply existsb_exists in H as [x [Hx Hk]].
  apply String.eqb_eq in Hk as <-.
  repeat (destruct Hx as [<-|Hx]; [reflexivity|]). destruct Hx.
Qed.

(** What [group_doc] does to the table: nothing, one write, or two. *)
Lemma group_doc_cases (spec : Bolt.group_spec) (t : Bolt.table) (d : obj) :
  let k := key_string spec d in
  (is_inherited k = true /\ Bolt.group_doc spec t d = t)
  \/ (exists acc v, Bolt.table_get k t = Some acc
                   /\ Bolt.group_doc spec t d = Bolt.table_put k v t)
  \/ (is_inherited k = false
      /\ exists v v', Bolt.group_doc spec t d
                      = Bolt.table_put k v (Bolt.table_put k v' t)).
Proof.
  intros k. unfold Bolt.group_doc. fold (key_string spec d). fold k.
  rewrite truthy_inherited.
  destruct (Bolt.table_get k t) as [acc|] eqn:Hget.
  - right. left. rewrite Hget. eauto.
  - destruct (is_inherited k) eqn:Hk.
    + left. now rewrite Hget.
    + right. right. split; [reflexivity|].
      rewrite table_get_put, String.eqb_refl. eauto.
Qed.

Lemma table_put_named (k : string) (v : obj) (t : Bolt.table) :
  (Bolt.named (Bolt.table_put k v t)).*1
  = match Bolt.array_index k with
    | Some _ => (Bolt.named t).*1
    | None => add_new (Bolt.named t).*1 k
    end.
Proof.
  unfold Bolt.table_put. destruct (Bolt.array_index k); simpl; [reflexivity|].
  apply put_named_keys.
Qed.

Lemma table_put_indexed (k : string) (v : obj) (t : Bolt.table) :
  (Bolt.indexed (Bolt.table_put k v t)).*1
  = match Bolt.array_index k with
    | Some i => insert_index i (Bolt.indexed t).*1
    | None => (Bolt.indexed t).*1
    end.
Proof.
  unfold Bolt.table_put. destruct (Bolt.array_index k); simpl; [|reflexivity].
  apply put_indexed_keys.
Qed.

Lemma group_doc_named (spec : Bolt.group_spec) (t : Bolt.table) (d : obj) :
  (Bolt.named (Bolt.group_doc spec t d)).*1
  = if files_named (key_string spec d)
    then add_new (Bolt.named t).*1 (key_string spec d)
    else (Bolt.named t).*1.
Proof.
  unfold files_named.
  destruct (group_doc_cases spec t d) as [[Hk ->]|[(acc & v & Hget & ->)|(Hk & v & v' & ->)]].
  - now rewrite Hk.
  - rewrite table_put_named. unfold Bolt.table_get in Hget.
    destruct (Bolt.array_index (key_string spec d)).
    + now rewrite andb_false_r.
    + rewrite andb_true_r. rewrite (get_named_present _ _ _ Hget).
      now destruct (negb _).
  - rewrite Hk, !table_put_named. simpl.
    destruct (Bolt.array_index (key_string spec d)); [reflexivity|].
    apply add_new_twice.
Qed.

Lemma group_doc_indexed (spec : Bolt.group_spec) (t : Bolt.table) (d : obj) :
  (Bolt.indexed (Bolt.group_doc spec t d)).*1
  = match Bolt.array_index (key_string spec d) with
    | Some i => insert_index i (Bolt.indexed t).*1
    | None => (Bolt.indexed t).*1
    end.
Proof.
  destruct (group_doc_cases spec t d) as [[Hk ->]|[(acc & v & Hget & ->)|(Hk & v & v' & ->)]].
  - now rewrite (inherited_not_index _ Hk).
  - apply table_put_indexed.
  - rewrite !table_put_indexed.
    destruct (Bolt.array_index (key_string spec d)); [|reflexivity].
    apply insert_index_twice.
Qed.

Lemma grouped_named (spec : Bolt.group_spec) (result : list obj) (t : Bolt.table) :
  (Bolt.named (fold_left (Bolt.group_doc spec) result t)).*1
  = fold_left add_new (List.filter files_named (key_strings spec result))
      (Bolt.named t).*1.
Proof.
  revert t. induction result as [|d result IH]; intros t; [reflexivity|].
  simpl. rewrite IH, group_doc_named.
  now destruct (files_named (key_string spec d)).
Qed.

Lemma grouped_indexed (spec : Bolt.group_spec) (result : list obj) (t : Bolt.table) :
  (Bolt.indexed (fold_left (Bolt.group_doc spec) result t)).*1
  = fold_left (fun l i => insert_index i l)
      (omap Bolt.array_index (key_strings spec result)) (Bolt.indexed t).*1.
Proof.
  revert t. induction result as [|d result IH]; intros t; [reflexivity|].
  simpl. rewrite IH, group_doc_indexed.
  now destruct (Bolt.array_index (key_string spec d)).
Qed.

Lemma grouped_named_keys (spec : Bolt.group_spec) (result : list obj) :
  (Bolt.named (Bolt.grouped spec result)).*1
  = first_seen (List.filter files_named (key_strings spec result)).
Proof. unfold Bolt.grouped. now rewrite grouped_named. Qed.

Lemma grouped_indexed_keys (spec : Bolt.group_spec) (result : list obj) :
  (Bolt.indexed (Bolt.grouped spec result)).*1
  = ascending (omap Bolt.array_index (key_strings spec result)).
Proof. unfold Bolt.grouped. now rewrite grouped_indexed. Qed.

Lemma grouped_keys (spec : Bolt.group_spec) (result : list obj) :
  Bolt.table_keys (Bolt.grouped spec result)
  = own_property_order (key_strings spec result).
Proof.
  unfold Bolt.table_keys, own_property_order.
  now rewrite grouped_named_keys, grouped_indexed_keys.
Qed.

Lemma existsb_eqb_in (k : string) (l : list string) :
  existsb (String.eqb k) l = true <-> k ∈ l.
Proof.
  rewrite existsb_exists, list_elem_of_In. split.
  - intros [x [Hx Hk]]. now apply String.eqb_eq in Hk as ->.
  - intros H. exists k. split; [exact H|apply String.eqb_refl].
Qed.

Lemma in_add_new (l : list string) (k k' : string) :
  k' ∈ add_new l k <-> k' ∈ l \/ k' = k.
Proof.
  unfold add_new. destruct (existsb (String.eqb k) l) eqn:E.
  - apply existsb_eqb_in in E. split; [tauto|]. intros [H| ->]; assumption.
  - rewrite elem_of_app, list_elem_of_singleton. tauto.
Qed.

Lemma nodup_add_new (l : list string) (k : string) :
  NoDup l -> NoDup (add_new l k).
Proof.
  intros Hnd. unfold add_new. destruct (existsb (String.eqb k) l) eqn:E; [exact Hnd|].
  apply NoDup_app. split; [exact Hnd|]. split; [|apply NoDup_singleton].
  intros x Hx Hk. apply list_elem_of_singleton in Hk as ->.
  apply existsb_eqb_in in Hx. congruence.
Qed.

Lemma in_fold_add_new (l init : list string) (k : string) :
  k ∈ fold_left add_new l init <-> k ∈ init \/ k ∈ l.
Proof.
  revert init. induction l as [|a l IH]; intros init; simpl.
  - rewrite elem_of_nil. tauto.
  - rewrite IH, in_add_new, elem_of_cons. tauto.
Qed.

Lemma nodup_fold_add_new (l init : list string) :
  NoDup init -> NoDup (fold_left add_new l init).
Proof.
  revert init. induction l as [|a l IH]; intros init H; [exact H|].
  simpl. apply IH. now apply nodup_add_new.
Qed.

Lemma in_insert_index (i x : N) (l : list N) :
  x ∈ insert_index i l <-> x = i \/ x ∈ l.
Proof.
  induction l as [|j l IH]; simpl.
  - rewrite list_elem_of_singleton, elem_of_nil. tauto.
  - destruct (N.ltb i j).
    + rewrite elem_of_cons. tauto.
    + destruct (N.eqb_spec i j) as [->|Hne].
      * rewrite elem_of_cons. tauto.
      * rewrite !elem_of_cons, IH. tauto.
Qed.

Lemma sorted_insert_index (i : N) (l : list N) :
  StronglySorted N.lt l -> StronglySorted N.lt (insert_index i l).
Proof.
  induction 1 as [|j l Hs IH Hj]; simpl.
  - constructor; constructor.
  - destruct (N.ltb_spec i j) as [Hlt|Hge].
    + constructor; [now constructor|]. constructor; [exact Hlt|].
      eapply List.Forall_impl; [|exact Hj]. intros x Hx. simpl in Hx. lia.
    + destruct (N.eqb_spec i j) as [->|Hne]; [now constructor|].
      constructor; [exact IH|]. apply List.Forall_forall. intros x Hx.
      apply list_elem_of_In, in_insert_index in Hx as [->|Hx]; [lia|].
      rewrite List.Forall_forall in Hj. now apply Hj, list_elem_of_In.
Qed.

Lemma in_fold_insert_index (l init : list N) (x : N) :
  x ∈ fold_left (fun l i => insert_index i l) l init <-> x ∈ init \/ x ∈ l.
Proof.
  revert init. induction l as [|a l IH]; intros init; simpl.
  - rewrite elem_of_nil. tauto.
  - rewrite IH, in_insert_index, elem_of_cons. tauto.
Qed.

Lemma sorted_fold_insert_index (l init : list N) :
  StronglySorted N.lt init ->
  StronglySorted N.lt (fold_left (fun l i => insert_index i l) l init).
Proof.
  revert init. induction l as [|a l IH]; intros init H; [exact H|].
  simpl. apply IH. now apply sorted_insert_index.
Qed.

Lemma sorted_nodup (l : list N) : StronglySorted N.lt l -> NoDup l.
Proof.
  induction 1 as [|j l Hs IH Hj]; [constructor|].
  apply NoDup_cons. split; [|exact IH]. intros Hin.
  rewrite List.Forall_forall in Hj. apply list_elem_of_In, Hj in Hin. lia.
Qed.

Lemma sorted_ascending (l : list N) : StronglySorted N.lt (ascending l).
Proof. apply sorted_fold_insert_index. constructor. Qed.

Lemma in_ascending (l : list N) (i : N) : i ∈ ascending l <-> i ∈ l.
Proof. unfold ascending. rewrite in_fold_insert_index, elem_of_nil. tauto. Qed.

Lemma in_first_seen (l : list string) (k : string) : k ∈ first_seen l <-> k ∈ l.
Proof. unfold first_seen. rewrite in_fold_add_new, elem_of_nil. tauto. Qed.

Lemma nodup_first_seen (l : list string) : NoDup (first_seen l).
Proof. apply nodup_fold_add_new. constructor. Qed.

Lemma in_indices (ks : list string) (i : N) :
  i ∈ ascending (omap Bolt.array_index ks) <->
  index_string i ∈ ks /\ Bolt.array_index (index_string i) = Some i.
Proof.
  rewrite in_ascending, list_elem_of_omap. split.
  - intros [k [Hk Hi]]. pose proof (array_index_sound k i Hi) as ->. now split.
  - intros [Hk Hi]. eauto.
Qed.

Lemma elem_of_filterb {A} (f : A -> bool) (l : list A) (x : A) :
  x ∈ List.filter f l <-> x ∈ l /\ f x = true.
Proof. rewrite !list_elem_of_In. apply filter_In. Qed.

Lemma in_own_property_order (ks : list string) (k : string) :
  k ∈ own_property_order ks <-> k ∈ ks /\ is_inherited k = false.
Proof.
  unfold own_property_order.
  rewrite elem_of_app, list_elem_of_fmap, in_first_seen, elem_of_filterb.
  unfold files_named. split.
  - intros [[i [-> Hi]]|[Hk Hf]].
    + apply in_indices in Hi as [Hk Hi]. split; [exact Hk|].
      destruct (is_inherited (index_string i)) eqn:E; [|reflexivity].
      apply inherited_not_index in E. congruence.
    + split; [exact Hk|]. now destruct (is_inherited k).
  - intros [Hk Hinh]. destruct (Bolt.array_index k) as [i|] eqn:Hi.
    + left. exists i. pose proof (array_index_sound k i Hi) as ->.
      split; [reflexivity|]. apply in_indices. now split.
    + right. split; [exact Hk|]. now rewrite Hinh.
Qed.

Lemma nodup_own_property_order (ks : list string) : NoDup (own_property_order ks).
Proof.
  unfold own_property_order. apply NoDup_app. split; [|split].
  - apply NoDup_fmap_2_strong; [|apply sorted_nodup, sorted_ascending].
    intros i j Hi Hj Heq. apply in_indices in Hi as [_ Hi], Hj as [_ Hj]. congruence.
  - intros k Hk Hk'. apply list_elem_of_fmap in Hk as [i [-> Hi]].
    apply in_indices in Hi as [_ Hi].
    rewrite in_first_seen, elem_of_filterb in Hk'. destruct Hk' as [_ Hf].
    unfold files_named in Hf.
    rewrite Hi in Hf. now rewrite andb_false_r in Hf.
  - apply nodup_first_seen.
Qed.

Lemma pairs_forall2 {A B} (P : A -> B -> Prop) (l : list (A * B)) :
  (forall p, p ∈ l -> P p.1 p.2) -> Forall2 P l.*1 l.*2.
Proof.
  induction l as [|p l IH]; intros H; csimpl; [constructor|].
  constructor; [apply H; now left|]. apply IH. intros q Hq. apply H. now right.
Qed.

Lemma get_indexed_nodup (l : list (N * obj)) (i : N) (v : obj) :
  NoDup l.*1 -> (i, v) ∈ l -> Bolt.get_indexed i l = Some v.
Proof.
  induction l as [|[j w] l IH]; csimpl; intros Hnd Hin.
  - now apply elem_of_nil in Hin.
  - apply NoDup_cons in Hnd as [Hj Hnd]. apply elem_of_cons in Hin as [[= -> ->]|Hin].
    + now rewrite N.eqb_refl.
    + destruct (N.eqb_spec i j) as [->|Hne]; [|now apply IH].
      destruct Hj. apply list_elem_of_fmap. now exists (j, v).
Qed.

Lemma get_named_nodup (l : list (string * obj)) (k : string) (v : obj) :
  NoDup l.*1 -> (k, v) ∈ l -> Bolt.get_named k l = Some v.
Proof.
  induction l as [|[j w] l IH]; csimpl; intros Hnd Hin.
  - now apply elem_of_nil in Hin.
  - apply NoDup_cons in Hnd as [Hj Hnd]. apply elem_of_cons in Hin as [[= -> ->]|Hin].
    + now rewrite String.eqb_refl.
    + destruct (String.eqb_spec k j) as [->|Hne]; [|now apply IH].
      destruct Hj. apply list_elem_of_fmap. now exists (j, v).
Qed.

Lemma values_of_keys (t : Bolt.table) :
  NoDup (Bolt.indexed t).*1 ->
  (forall i, i ∈ (Bolt.indexed t).*1 -> Bolt.array_index (index_string i) = Some i) ->
  NoDup (Bolt.named t).*1 ->
  (forall k, k ∈ (Bolt.named t).*1 -> Bolt.array_index k = None) ->
  Forall2 (fun k acc => Bolt.table_get k t = Some acc)
    (Bolt.table_keys t) (Bolt.table_values t).
Proof.
  intros Hni Hi Hnn Hn. unfold Bolt.table_keys, Bolt.table_values.
  apply Forall2_app.
  - change (map (fun i => digits_of (Z.of_N i)) (Bolt.indexed t).*1)
      with (index_string <$> (Bolt.indexed t).*1).
    apply Forall2_fmap_l. apply pairs_forall2. intros [i v] Hin. simpl.
    unfold Bolt.table_get. rewrite Hi by (apply list_elem_of_fmap; now exists (i, v)).
    now apply get_indexed_nodup.
  - apply pairs_forall2. intros [k v] Hin. simpl.
    unfold Bolt.table_get. rewrite Hn by (apply list_elem_of_fmap; now exists (k, v)).
    now apply get_named_nodup.
Qed.

(** C5, as stated, fails twice.  The emitted groups do not follow the order
    in which the keys are first met: with Charlie (35), Bob (30) and Alice
    (25) stored in that order, grouping by age emits the groups 25, 30, 35.  And two distinct key
    values can share one group: the number 1 and the string ["1"] give a
    single accumulator document. *)
Lemma group_order_is_not_first_seen :
  first_seen (key_strings Examples.by_age Examples.eldest_first) = ["35"; "30"; "25"]
  /\ map (fun acc => get acc "_id")
       (Bolt.aggregate [Bolt.group_stage Examples.by_age] Examples.eldest_first)
     = [VNum 25; VNum 30; VNum 35]
  /\ map (Bolt.group_key Examples.by_code) Examples.codes = [VNum 1; VStr "1"]
  /\ length (Bolt.aggregate [Bolt.group_stage Examples.by_code] Examples.codes) = 1.
Proof. repeat split; vm_compute; reflexivity. Qed.

(** C5, amended: a [$group] stage that files no document under the name of
    a property of [Object.prototype] emits exactly one accumulator document
    per distinct string form of the grouping key: the keys of the table are
    those strings, each once, and the emitted documents are, key by key, the
    accumulators of the partitions.  The documents whose key is an array
    index come first, by ascending index; the others follow in the order in
    which their keys are first met in the working set. *)
Theorem group_emits_one_per_key_string (spec : Bolt.group_spec) (result : list obj) :
  plain_keys spec result = true ->
  Bolt.table_keys (Bolt.grouped spec result)
  = own_property_order (key_strings spec result)
  /\ StronglySorted N.lt (ascending (omap Bolt.array_index (key_strings spec result)))
  /\ NoDup (Bolt.table_keys (Bolt.grouped spec result))
  /\ (forall k, In k (Bolt.table_keys (Bolt.grouped spec result)) <->
       exists doc, In doc result /\ key_string spec doc = k)
  /\ Forall2 (fun k acc => accumulator spec (partition spec k result) = Some acc)
       (Bolt.table_keys (Bolt.grouped spec result))
       (Bolt.run_stage result (Bolt.group_stage spec)).
Proof.
  intros Hplain.
  assert (Hin : forall k, k ∈ Bolt.table_keys (Bolt.grouped spec result) <->
                  k ∈ key_strings spec result /\ is_inherited k = false)
    by (intros k; rewrite grouped_keys; apply in_own_property_order).
  split; [apply grouped_keys|]. split; [apply sorted_ascending|].
  split; [rewrite grouped_keys; apply nodup_own_property_order|]. split.
  - intros k. rewrite <- list_elem_of_In, Hin. unfold key_strings.
    rewrite list_elem_of_In, in_map_iff. split.
    + intros [[doc [<- Hdoc]] Hk]. eauto.
    + intros [doc [Hdoc <-]]. split; [eauto|].
      unfold plain_keys in Hplain. rewrite forallb_forall in Hplain.
      now apply negb_true_iff, Hplain.
  - simpl. eapply Forall2_impl.
    + apply values_of_keys.
      * rewrite grouped_indexed_keys. apply sorted_nodup, sorted_ascending.
      * intros i. rewrite grouped_indexed_keys. intros Hi. now apply in_indices in Hi.
      * rewrite grouped_named_keys. apply nodup_first_seen.
      * intros k. rewrite grouped_named_keys, in_first_seen, elem_of_filterb.
        unfold files_named. intros [_ Hf].
        destruct (Bolt.array_index k); [now rewrite andb_false_r in Hf|reflexivity].
    + intros k acc Hget. simpl in Hget. rewrite grouped_get in Hget.
      now destruct (is_inherited k).
Qed.

Lemma group_emits_one_per_key_string_witness :
  Bolt.table_keys (Bolt.grouped Examples.by_age Examples.eldest_first)
  = own_property_order (key_strings Examples.by_age Examples.eldest_first).
Proof.
  refine (proj1 (group_emits_one_per_key_string Examples.by_age Examples.eldest_first _)).
  vm_compute; reflexivity.
Defined.

(** * Further properties of the class *)

(** ** [find] and [findOne] *)

Lemma sublist_filterb {A} (f g : A -> bool) (l : list A) :
  (forall x, f x = true -> g x = true) -> sublist (List.filter f l) (List.filter g l).
Proof.
  intros Hfg. induction l as [|a l IH]; simpl; [constructor|].
  destruct (f a) eqn:Hf.
  - rewrite (Hfg a Hf). now constructor.
  - destruct (g a); [now constructor|exact IH].
Qed.

Lemma filterb_all {A} (f : A -> bool) (l : list A) :
  (forall x, In x l -> f x = true) -> List.filter f l = l.
Proof.
  induction l as [|a l IH]; intros H; simpl; [reflexivity|].
  rewrite (H a (or_introl eq_refl)). f_equal. apply IH. intros x Hx. apply H. now right.
Qed.

Lemma matches_empty (D : obj) : Bolt.matches D ∅ = true.
Proof. reflexivity. Qed.

Lemma matches_weaken (D Q Q' : obj) :
  Q ⊆ Q' -> Bolt.matches D Q' = true -> Bolt.matches D Q = true.
Proof.
  intros Hsub. rewrite !matches_iff. intros H key Hkey.
  apply in_keys in Hkey as [v Hv].
  pose proof (lookup_weaken Q Q' key v Hv Hsub) as Hv'.
  rewrite (get_own Q key v Hv), <- (get_own Q' key v Hv'). apply H.
  apply in_keys. eauto.
Qed.

(** X1: [find(Q)] returns the stored documents that match, in the order of
    the store: its result is a sublist of that of [find({})], which is every
    document; and a query with more fields returns a sublist of what the
    query with fewer fields returns. *)
Theorem find_narrows (Q Q' : obj) (s : store) :
  Bolt.find ∅ s = read_all s
  /\ sublist (Bolt.find Q s) (Bolt.find ∅ s)
  /\ (Q ⊆ Q' -> sublist (Bolt.find Q' s) (Bolt.find Q s)).
Proof.
  assert (Hall : Bolt.find ∅ s = read_all s).
  { unfold Bolt.find. apply filterb_all. intros x _. apply matches_empty. }
  split; [exact Hall|]. split.
  - unfold Bolt.find. apply sublist_filterb. intros x _. apply matches_empty.
  - intros Hsub. unfold Bolt.find. apply sublist_filterb. intros x.
    now apply matches_weaken.
Qed.

Lemma find_narrows_witness :
  sublist (Bolt.find (Examples.document [("age", VNum 30); ("name", VStr "Bob")])
             Examples.people)
    (Bolt.find (Examples.document [("age", VNum 30)]) Examples.people).
Proof.
  apply (find_narrows (Examples.document [("age", VNum 30)])
           (Examples.document [("age", VNum 30); ("name", VStr "Bob")])
           Examples.people).
  apply map_subseteq_spec. intros k v Hk.
  destruct (decide (k = "age")) as [->|Hne].
  - vm_compute in Hk. injection Hk as <-. reflexivity.
  - unfold Examples.document in Hk. simpl in Hk.
    rewrite lookup_insert_ne in Hk by congruence. rewrite lookup_empty in Hk. discriminate.
Defined.

Lemma find_head_filter {A} (f : A -> bool) (l : list A) :
  List.find f l = head (List.filter f l).
Proof.
  induction l as [|a l IH]; simpl; [reflexivity|]. now destruct (f a).
Qed.

(** X2: [findOne(Q)] resolves with the first document of [find(Q)], and with
    null exactly when no stored document matches. *)
Theorem findOne_is_first_of_find (Q : obj) (s : store) :
  Bolt.findOne Q s = head (Bolt.find Q s)
  /\ (Bolt.findOne Q s = None <->
      forall doc, In doc (read_all s) -> Bolt.matches doc Q = false).
Proof.
  split; [apply find_head_filter|]. unfold Bolt.findOne. split.
  - intros H doc Hdoc. exact (find_none _ _ H doc Hdoc).
  - intros H. rewrite find_head_filter, (filter_nil_intro _ _ H). reflexivity.
Qed.

(** ** [_id] is a primary key *)

Lemma SFeqb_inv (a b : spec_float) :
  SFeqb a b = true ->
  (exists s s', a = S754_zero s /\ b = S754_zero s') \/ (a = b /\ a <> S754_nan).
Proof.
  unfold SFeqb.
  destruct a as [s1|s1| |s1 m1 e1], b as [s2|s2| |s2 m2 e2]; simpl;
    try discriminate; try (destruct s1; discriminate); try (destruct s2; discriminate).
  - intros _. left. eauto.
  - destruct s1, s2; try discriminate; intros _; right; split; congruence.
  - destruct s1, s2; try discriminate;
      destruct (e1 ?= e2)%Z eqn:He; try discriminate;
      destruct (Pos.compare_cont Eq m1 m2) eqn:Hm; try discriminate;
      intros _; apply Z.compare_eq in He; apply (Pos.compare_eq m1 m2) in Hm;
      subst; right; split; congruence.
Qed.

Lemma SFeqb_refl (a : spec_float) : a <> S754_nan -> SFeqb a a = true.
Proof.
  unfold SFeqb. destruct a as [s|s| |s m e]; simpl; try reflexivity.
  - now destruct s.
  - congruence.
  - intros _. destruct s; rewrite Z.compare_refl, Pos.compare_cont_refl; reflexivity.
Qed.

Lemma float_eqb_meet (x x' y : float) :
  PrimFloat.eqb x y = true -> PrimFloat.eqb x' y = true -> PrimFloat.eqb x x' = true.
Proof.
  rewrite !FloatAxioms.eqb_spec. intros H H'.
  apply SFeqb_inv in H as [(s & t & Hx & Hy)|[Hx Hn]];
    apply SFeqb_inv in H' as [(s' & t' & Hx' & Hy')|[Hx' Hn']].
  - now rewrite Hx, Hx'.
  - rewrite Hx, Hx', Hy. reflexivity.
  - rewrite Hx', Hx, Hy'. reflexivity.
  - rewrite Hx, <- Hx'. now apply SFeqb_refl.
Qed.

Lemma same_id_same_key (w w' v : value) (k k' : key) :
  key_of_value w = Some k -> key_of_value w' = Some k' ->
  strict_eq (clone_value w) v = true -> strict_eq (clone_value w') v = true ->
  key_eqb k k' = true.
Proof.
  destruct w as [| | |x|t|]; try discriminate; destruct w' as [| | |x'|t'|];
    try discriminate; simpl.
  - destruct (PrimFloat.is_nan x), (PrimFloat.is_nan x'); try discriminate.
    intros [= <-] [= <-]. destruct v; try discriminate. apply float_eqb_meet.
  - destruct (PrimFloat.is_nan x); try discriminate.
    intros _ _. destruct v; discriminate.
  - destruct (PrimFloat.is_nan x'); try discriminate.
    intros _ _. destruct v; discriminate.
  - intros [= <-] [= <-]. destruct v; try discriminate. simpl.
    intros H H'. apply String.eqb_eq in H as ->. now rewrite String.eqb_sym.
Qed.

Lemma matches_id (D : obj) (v : value) :
  Bolt.matches D {[ "_id" := v ]} = strict_eq (get D "_id") v.
Proof.
  unfold Bolt.matches, keys. rewrite map_to_list_singleton. simpl.
  rewrite (get_own {[ "_id" := v ]} "_id" v (lookup_singleton_eq "_id" v)).
  apply andb_true_r.
Qed.

Lemma matches_id_key (r r' : obj) (v : value) (k : key) :
  record_key r = Some k ->
  Bolt.matches (clone r) {[ "_id" := v ]} = true ->
  Bolt.matches (clone r') {[ "_id" := v ]} = true ->
  has_key k r' = true \/ record_key r' = None.
Proof.
  rewrite !matches_id. unfold has_key, record_key, get. rewrite !clone_lookup.
  destruct (r !! "_id") as [w|]; [|discriminate].
  destruct (r' !! "_id") as [w'|] eqn:Hw'; [|now right]. simpl.
  intros Hk Hm Hm'. destruct (key_of_value w') as [k'|] eqn:Hk'; [|now right].
  left. exact (same_id_same_key w w' v k k' Hk Hk' Hm Hm').
Qed.

(** X3: on a store whose records have distinct keys, [find({ _id: v })]
    returns at most one document, and [findOne({ _id: v })] that document
    when there is one. *)
Theorem find_by_id_is_unique (v : value) (s : store) :
  store_ok s = true ->
  length (Bolt.find {[ "_id" := v ]} s) <= 1
  /\ (forall doc, In doc (Bolt.find {[ "_id" := v ]} s) ->
      Bolt.findOne {[ "_id" := v ]} s = Some doc).
Proof.
  intros Hok.
  assert (Hone : length (Bolt.find {[ "_id" := v ]} s) <= 1).
  { unfold Bolt.find, read_all. induction s as [|r t IH]; simpl; [lia|].
    simpl in Hok. destruct (record_key r) as [k|] eqn:Hk; [|discriminate].
    apply andb_prop in Hok as [Hfresh Hok].
    destruct (Bolt.matches (clone r) {[ "_id" := v ]}) eqn:Hm; [|now apply IH].
    rewrite filter_nil_intro; [simpl; lia|].
    intros x Hx. apply in_map_iff in Hx as [r' [<- Hr']].
    destruct (Bolt.matches (clone r') {[ "_id" := v ]}) eqn:Hm'; [|reflexivity].
    rewrite forallb_forall in Hfresh. specialize (Hfresh r' Hr').
    destruct (matches_id_key r r' v k Hk Hm Hm') as [H|H].
    - rewrite H in Hfresh. discriminate Hfresh.
    - destruct (store_ok_key t r' Hok Hr') as [k' Hk']. rewrite Hk' in H. discriminate H. }
  split; [exact Hone|].
  intros doc Hdoc. unfold Bolt.findOne. rewrite find_head_filter.
  fold (Bolt.find {[ "_id" := v ]} s).
  destruct (Bolt.find {[ "_id" := v ]} s) as [|d [|d' l]]; simpl in *.
  - destruct Hdoc.
  - destruct Hdoc as [->|[]]. reflexivity.
  - lia.
Qed.

Lemma find_by_id_is_unique_witness :
  length (Bolt.find {[ "_id" := VNum 2 ]} Examples.people) <= 1.
Proof.
  apply (find_by_id_is_unique (VNum 2) Examples.people). vm_compute; reflexivity.
Defined.

(** ** Stages that filter *)

Lemma matches_union (D Q1 Q2 : obj) :
  Q1 ##ₘ Q2 ->
  Bolt.matches D (Q1 ∪ Q2) = Bolt.matches D Q1 && Bolt.matches D Q2.
Proof.
  intros Hdisj. apply Bool.eq_iff_eq_true. rewrite andb_true_iff, !matches_iff. split.
  - intros H. split; intros key Hkey; apply in_keys in Hkey as [v Hv].
    + rewrite (get_own Q1 key v Hv),
        <- (get_own (Q1 ∪ Q2) key v (lookup_union_Some_l Q1 Q2 key v Hv)).
      apply H, in_keys. exists v. now apply lookup_union_Some_l.
    + rewrite (get_own Q2 key v Hv),
        <- (get_own (Q1 ∪ Q2) key v (lookup_union_Some_r Q1 Q2 key v Hdisj Hv)).
      apply H, in_keys. exists v. now apply lookup_union_Some_r.
  - intros [H1 H2] key Hkey. apply in_keys in Hkey as [v Hv].
    rewrite (get_own _ key v Hv).
    destruct (proj1 (lookup_union_Some Q1 Q2 key v Hdisj) Hv) as [Hv1|Hv2].
    + rewrite <- (get_own Q1 key v Hv1). apply H1, in_keys. eauto.
    + rewrite <- (get_own Q2 key v Hv2). apply H2, in_keys. eauto.
Qed.

Lemma filterb_filterb {A} (f g : A -> bool) (l : list A) :
  List.filter g (List.filter f l) = List.filter (fun x => f x && g x) l.
Proof.
  induction l as [|a l IH]; simpl; [reflexivity|].
  destruct (f a); simpl; [destruct (g a)|]; now rewrite IH.
Qed.

(** X4: [aggregate] with a single [$match] stage is [find]; two [$match]
    stages in a row give the same result in either order, and, when their
    queries have no field in common, the result of [find] on the two queries
    put together. *)
Theorem match_stages_compose (Q1 Q2 : obj) (s : store) :
  Bolt.aggregate [Bolt.match_stage Q1] s = Bolt.find Q1 s
  /\ Bolt.aggregate [Bolt.match_stage Q1; Bolt.match_stage Q2] s
     = Bolt.aggregate [Bolt.match_stage Q2; Bolt.match_stage Q1] s
  /\ (Q1 ##ₘ Q2 ->
      Bolt.aggregate [Bolt.match_stage Q1; Bolt.match_stage Q2] s
      = Bolt.find (Q1 ∪ Q2) s).
Proof.
  split; [reflexivity|].
  unfold Bolt.aggregate, Bolt.run_pipeline, Bolt.find.
  cbn [fold_left Bolt.run_stage Bolt.match_stage Bolt.s_match].
  rewrite !filterb_filterb. split.
  - apply filter_ext. intros x. apply andb_comm.
  - intros Hdisj. apply filter_ext. intros x. now rewrite matches_union.
Qed.

Lemma match_stages_compose_witness :
  Bolt.aggregate [Bolt.match_stage (Examples.document [("age", VNum 30)]);
                  Bolt.match_stage (Examples.document [("name", VStr "Bob")])]
    Examples.people
  = Bolt.find (Examples.document [("age", VNum 30)]
               ∪ Examples.document [("name", VStr "Bob")]) Examples.people.
Proof.
  apply (match_stages_compose (Examples.document [("age", VNum 30)])
           (Examples.document [("name", VStr "Bob")]) Examples.people).
  apply map_disjoint_spec. intros k v w Hv Hw.
  destruct (decide (k = "age")) as [->|Hne].
  - vm_compute in Hw. discriminate.
  - unfold Examples.document in Hv. simpl in Hv.
    rewrite lookup_insert_ne in Hv by congruence. rewrite lookup_empty in Hv. discriminate.
Defined.

(** ** Stages that are neither *)

(** X23: in a pipeline whose [$group] stages file no document under the
    name of a property of [Object.prototype], a stage that has neither
    [$match] nor [$group] leaves the working set as it is, and the pipeline
    gives the same result with or without it. *)
Theorem plain_pipeline_skips_other_stages (st : Bolt.stage)
    (before after : list Bolt.stage) (result : list obj) (s : store) :
  plain_pipeline (before ++ after) (read_all s) = true ->
  Bolt.s_match st = None -> Bolt.s_group st = None ->
  Bolt.run_stage result st = result
  /\ Bolt.aggregate (before ++ st :: after) s = Bolt.aggregate (before ++ after) s.
Proof.
  intros _ Hm Hg.
  assert (Hskip : forall ws, Bolt.run_stage ws st = ws).
  { intros ws. unfold Bolt.run_stage. now rewrite Hm, Hg. }
  split; [apply Hskip|].
  unfold Bolt.aggregate, Bolt.run_pipeline. rewrite !fold_left_app.
  cbn [fold_left]. now rewrite Hskip.
Qed.

Lemma plain_pipeline_skips_other_stages_witness :
  Bolt.run_stage Examples.slips Examples.other_stage = Examples.slips
  /\ Bolt.aggregate
       ([Bolt.group_stage Examples.by_dept] ++ Examples.other_stage
          :: [Bolt.match_stage (Examples.document [("pay", VNum 15)])])
       Examples.slips
     = Bolt.aggregate
         ([Bolt.group_stage Examples.by_dept]
            ++ [Bolt.match_stage (Examples.document [("pay", VNum 15)])])
         Examples.slips.
Proof.
  apply (plain_pipeline_skips_other_stages Examples.other_stage
           [Bolt.group_stage Examples.by_dept]
           [Bolt.match_stage (Examples.document [("pay", VNum 15)])]
           Examples.slips Examples.slips).
  - vm_compute; reflexivity.
  - reflexivity.
  - reflexivity.
Defined.

(** ** What [update] and [delete] leave behind *)

(** X5: [update(Q, P)] never writes.  The store is left as it was; the
    promise resolves, with the empty sequence, when no document matches [Q],
    and is rejected when one does, as [store.put] is called on the
    transaction opened before [find] was awaited. *)
Theorem update_writes_nothing (Q P : obj) (s : store) :
  (Bolt.update Q P s).1 = s
  /\ (Bolt.find Q s = [] -> (Bolt.update Q P s).2 = Some [])
  /\ (Bolt.find Q s <> [] -> (Bolt.update Q P s).2 = None).
Proof.
  rewrite update_outcome. cbn [fst snd]. split; [reflexivity|].
  destruct (Bolt.find Q s); split; intros H; try reflexivity;
    [contradiction|discriminate H].
Qed.

Lemma update_writes_nothing_witness :
  (Bolt.update Examples.in_paris Examples.to_rome_as_2 Examples.parisians).1
  = Examples.parisians
  /\ (Bolt.update Examples.in_paris Examples.to_rome_as_2 Examples.parisians).2
     = None.
Proof.
  pose proof (update_writes_nothing Examples.in_paris Examples.to_rome_as_2
                Examples.parisians) as (H1 & _ & H3).
  split; [exact H1|]. apply H3. vm_compute; discriminate.
Defined.

(** X7: [delete(Q)] never deletes.  The store is left as it was; the
    promise resolves, with 0, when no document matches [Q], and is rejected
    when one does, as [store.delete] is called on the transaction opened
    before [find] was awaited. *)
Theorem delete_writes_nothing (Q : obj) (s : store) :
  (Bolt.delete Q s).1 = s
  /\ (Bolt.find Q s = [] -> (Bolt.delete Q s).2 = Some 0)
  /\ (Bolt.find Q s <> [] -> (Bolt.delete Q s).2 = None).
Proof.
  rewrite delete_outcome. cbn [fst snd]. split; [reflexivity|].
  destruct (Bolt.find Q s); split; intros H; try reflexivity;
    [contradiction|discriminate H].
Qed.

Lemma delete_writes_nothing_witness :
  (Bolt.delete (Examples.document [("age", VNum 35)]) Examples.people).1
  = Examples.people
  /\ (Bolt.delete (Examples.document [("age", VNum 35)]) Examples.people).2 = None.
Proof.
  pose proof (delete_writes_nothing (Examples.document [("age", VNum 35)])
                Examples.people) as (H1 & _ & H3).
  split; [exact H1|]. apply H3. vm_compute; discriminate.
Defined.

(** ** When nothing matches *)

(** X10: when no stored document matches the query, [find] returns the
    empty sequence, [findOne] resolves with null, [sum] with 0, [delete]
    with 0 and [update] with the empty sequence, and neither [delete] nor
    [update] changes the store, whatever the patch. *)
Theorem nothing_matches (Q P : obj) (field : string) (s : store) :
  (forall doc, In doc (read_all s) -> Bolt.matches doc Q = false) ->
  Bolt.find Q s = []
  /\ Bolt.findOne Q s = None
  /\ Bolt.sum field Q s = VNum 0
  /\ Bolt.delete Q s = (s, Some 0)
  /\ Bolt.update Q P s = (s, Some []).
Proof.
  intros H. pose proof (filter_nil_intro _ _ H) as Hnil.
  unfold Bolt.findOne, Bolt.sum, Bolt.delete, Bolt.update, Bolt.find.
  rewrite find_head_filter, !Hnil. repeat split.
Qed.

Lemma nothing_matches_witness :
  Bolt.delete (Examples.document [("age", VNum 99)]) Examples.people
  = (Examples.people, Some 0).
Proof.
  apply (nothing_matches (Examples.document [("age", VNum 99)]) ∅ "age" Examples.people).
  assert (H : forallb (fun doc =>
                          negb (Bolt.matches doc (Examples.document [("age", VNum 99)])))
                (read_all Examples.people) = true) by (vm_compute; reflexivity).
  intros doc Hdoc. rewrite forallb_forall in H.
  exact (proj1 (negb_true_iff _) (H doc Hdoc)).
Defined.

(** ** The kind of value [sum] returns *)

Lemma sum_step_text (field : string) (acc : value) (doc : obj) (t : string) :
  acc = VStr t ->
  exists t', js_add acc (js_or (get doc field) (VNum 0)) = VStr t'.
Proof. intros ->. unfold js_add. simpl. eauto. Qed.

Lemma sum_step_number (field : string) (a : float) (doc : obj) :
  (texty (get doc field) = false ->
   exists x, js_add (VNum a) (js_or (get doc field) (VNum 0)) = VNum x)
  /\ (texty (get doc field) = true ->
      exists t, js_add (VNum a) (js_or (get doc field) (VNum 0)) = VStr t).
Proof.
  unfold js_or, js_add. destruct (get doc field) as [| |[]|x|t|r sh]; simpl;
    split; intros H; try discriminate H; eauto.
  - destruct (negb _); simpl; eauto.
  - destruct (String.eqb t ""); [simpl; eauto|discriminate H].
  - destruct (String.eqb t ""); [discriminate H|simpl; eauto].
Qed.

Lemma sum_fold_text (field : string) (docs : list obj) (t : string) :
  exists t', fold_left (fun acc doc => js_add acc (js_or (get doc field) (VNum 0)))
               docs (VStr t) = VStr t'.
Proof.
  revert t. induction docs as [|doc docs IH]; intros t; simpl; [eauto|].
  destruct (sum_step_text field (VStr t) doc t eq_refl) as [t' ->]. apply IH.
Qed.

Lemma sum_fold_kind (field : string) (docs : list obj) (a : float) :
  is_number (fold_left (fun acc doc => js_add acc (js_or (get doc field) (VNum 0)))
               docs (VNum a))
  = negb (existsb (fun doc => texty (get doc field)) docs).
Proof.
  revert a. induction docs as [|doc docs IH]; intros a; simpl; [reflexivity|].
  destruct (sum_step_number field a doc) as [Hnum Htext].
  destruct (texty (get doc field)) eqn:E; simpl.
  - destruct (Htext eq_refl) as [t ->].
    destruct (sum_fold_text field docs t) as [t' ->]. reflexivity.
  - destruct (Hnum eq_refl) as [x ->]. apply IH.
Qed.

Lemma sum_fold_falsy (field : string) (docs : list obj) :
  forallb (fun doc => negb (truthy (get doc field))) docs = true ->
  fold_left (fun acc doc => js_add acc (js_or (get doc field) (VNum 0))) docs (VNum 0)
  = VNum 0.
Proof.
  induction docs as [|doc docs IH]; intros H; simpl; [reflexivity|].
  simpl in H. apply andb_prop in H as [Hdoc Hdocs]. apply negb_true_iff in Hdoc.
  unfold js_or. rewrite Hdoc. now apply IH.
Qed.

Lemma sum_fold_shape (field : string) (docs : list obj) (a : float) :
  (exists x, fold_left (fun acc doc => js_add acc (js_or (get doc field) (VNum 0)))
               docs (VNum a) = VNum x)
  \/ (exists t, fold_left (fun acc doc => js_add acc (js_or (get doc field) (VNum 0)))
                  docs (VNum a) = VStr t).
Proof.
  revert a. induction docs as [|doc docs IH]; intros a; cbn [fold_left]; [left; eauto|].
  destruct (texty (get doc field)) eqn:E.
  - destruct (proj2 (sum_step_number field a doc) E) as [t ->].
    right. apply sum_fold_text.
  - destruct (proj1 (sum_step_number field a doc) E) as [x ->]. apply IH.
Qed.

(** X11: [sum(f, Q)] resolves with a number when no matched document holds
    a non-empty string or a nested value at [f], and with a string as soon
    as one does; it resolves with 0 when every matched document holds a
    falsy value (or nothing) at [f]. *)
Theorem sum_is_number_or_text (field : string) (Q : obj) (s : store) :
  is_number (Bolt.sum field Q s)
  = negb (existsb (fun doc => texty (get doc field)) (Bolt.find Q s))
  /\ (existsb (fun doc => texty (get doc field)) (Bolt.find Q s) = true ->
      exists t, Bolt.sum field Q s = VStr t)
  /\ (forallb (fun doc => negb (truthy (get doc field))) (Bolt.find Q s) = true ->
      Bolt.sum field Q s = VNum 0).
Proof.
  unfold Bolt.sum. fold (Bolt.find Q s). split; [apply sum_fold_kind|]. split.
  - intros H. pose proof (sum_fold_kind field (Bolt.find Q s) 0) as Hk.
    rewrite H in Hk.
    destruct (sum_fold_shape field (Bolt.find Q s) 0) as [[x Hx]|Ht]; [|exact Ht].
    rewrite Hx in Hk. discriminate Hk.
  - apply sum_fold_falsy.
Qed.

Lemma sum_is_number_or_text_witness :
  Bolt.sum "salary" ∅ Examples.people = VNum 0.
Proof.
  apply (sum_is_number_or_text "salary" ∅ Examples.people). vm_compute; reflexivity.
Defined.

(** ** The documents a [$group] stage emits *)

Lemma emitted_by_key (spec : Bolt.group_spec) (result : list obj) :
  Forall2 (fun k acc => is_inherited k = false
                        /\ accumulator spec (partition spec k result) = Some acc)
    (Bolt.table_keys (Bolt.grouped spec result))
    (Bolt.table_values (Bolt.grouped spec result)).
Proof.
  eapply Forall2_impl.
  - apply values_of_keys.
    + rewrite grouped_indexed_keys. apply sorted_nodup, sorted_ascending.
    + intros i. rewrite grouped_indexed_keys. intros Hi. now apply in_indices in Hi.
    + rewrite grouped_named_keys. apply nodup_first_seen.
    + intros k. rewrite grouped_named_keys, in_first_seen, elem_of_filterb.
      unfold files_named. intros [_ Hf].
      destruct (Bolt.array_index k); [now rewrite andb_false_r in Hf|reflexivity].
  - intros k acc Hget. simpl in Hget. rewrite grouped_get in Hget.
    destruct (is_inherited k); [discriminate Hget|now split].
Qed.

Lemma forall2_partner {A B} (P : A -> B -> Prop) (l : list A) (k : list B) (y : B) :
  Forall2 P l k -> In y k -> exists x, In x l /\ P x y.
Proof.
  induction 1 as [|x y' l k Hxy _ IH]; intros Hin; [destruct Hin|].
  destruct Hin as [->|Hin].
  - exists x. split; [now left|exact Hxy].
  - destruct (IH Hin) as [x' [Hx' HP]]. exists x'. split; [now right|exact HP].
Qed.

Lemma emitted_accumulator (spec : Bolt.group_spec) (result : list obj) (acc : obj) :
  In acc (Bolt.run_stage result (Bolt.group_stage spec)) ->
  exists k, In k (Bolt.table_keys (Bolt.grouped spec result))
            /\ accumulator spec (partition spec k result) = Some acc.
Proof.
  intros Hin.
  change (Bolt.run_stage result (Bolt.group_stage spec))
    with (Bolt.table_values (Bolt.grouped spec result)) in Hin.
  destruct (forall2_partner _ _ _ acc (emitted_by_key spec result) Hin)
    as [k [Hk [_ Hacc]]]. eauto.
Qed.

(** X12: a [$group] stage that files no document under the name of a
    property of [Object.prototype] emits at most as many documents as it
    receives, and none when it receives none. *)
Theorem group_does_not_grow (spec : Bolt.group_spec) (result : list obj) :
  plain_keys spec result = true ->
  length (Bolt.run_stage result (Bolt.group_stage spec)) <= length result
  /\ Bolt.run_stage [] (Bolt.group_stage spec) = [].
Proof.
  intros _. split; [|reflexivity].
  change (Bolt.run_stage result (Bolt.group_stage spec))
    with (Bolt.table_values (Bolt.grouped spec result)).
  rewrite <- (Forall2_length _ _ _ (emitted_by_key spec result)), grouped_keys.
  unfold key_strings. rewrite <- (length_map (key_string spec) result).
  apply submseteq_length, NoDup_submseteq; [apply nodup_own_property_order|].
  intros k Hk. now apply in_own_property_order in Hk.
Qed.

Lemma group_does_not_grow_witness :
  length (Bolt.run_stage Examples.slips (Bolt.group_stage Examples.by_dept))
  <= length Examples.slips.
Proof.
  apply (group_does_not_grow Examples.by_dept Examples.slips). vm_compute; reflexivity.
Defined.

Lemma lookup_assign (acc : obj) (g k : string) (v w : value) :
  JS.assign acc g v !! k = Some w -> k = g \/ acc !! k = Some w.
Proof.
  destruct (String.eqb_spec k g) as [->|Hne]; [now left|].
  rewrite lookup_assign_other by congruence. now right.
Qed.

Lemma accumulate_own (spec : Bolt.group_spec) (d acc : obj) (k : string) (w : value) :
  Bolt.accumulate spec d acc !! k = Some w ->
  is_Some (acc !! k) \/ declared spec k.
Proof.
  unfold Bolt.accumulate, declared.
  assert (Hgen : forall L acc0,
    fold_left
      (fun acc field =>
         if negb (String.eqb field "_id") && negb (String.eqb field "initial")
         then JS.assign acc field
                (js_add (js_or (get acc field) (VNum 0)) (get d field))
         else acc) L acc0 !! k = Some w ->
    is_Some (acc0 !! k) \/ (In k L /\ k <> "_id" /\ k <> "initial")).
  { induction L as [|g L IH]; intros acc0 H; simpl in H; [left; eauto|].
    apply IH in H as [H|(Hin & Hid & Hinit)]; [|right; split; [now right|now split]].
    destruct (String.eqb_spec g "_id") as [->|Hgid]; simpl in H; [now left|].
    destruct (String.eqb_spec g "initial") as [->|Hginit]; simpl in H; [now left|].
    destruct H as [w' H]. apply lookup_assign in H as [->|H]; [|left; eauto].
    right. split; [now left|now split]. }
  apply Hgen.
Qed.

Lemma accumulate_all_own (spec : Bolt.group_spec) (part : list obj) (acc : obj)
    (k : string) (w : value) :
  fold_left (fun acc doc => Bolt.accumulate spec doc acc) part acc !! k = Some w ->
  is_Some (acc !! k) \/ declared spec k.
Proof.
  revert acc w. induction part as [|d part IH]; intros acc w H; simpl in H; [left; eauto|].
  apply IH in H as [[w' H]|H]; [|now right]. now apply accumulate_own in H.
Qed.

(** X13: a document emitted by a [$group] stage has an [_id], and its fields
    are [_id], the fields of the initial accumulator and the fields the
    group spec declares: no other field is ever synthesized. *)
Theorem group_emits_declared_fields (spec : Bolt.group_spec) (result : list obj)
    (acc : obj) :
  plain_keys spec result = true ->
  In acc (Bolt.run_stage result (Bolt.group_stage spec)) ->
  is_Some (acc !! "_id")
  /\ (forall k, is_Some (acc !! k) ->
      k = "_id" \/ is_Some (Bolt.gs_initial spec !! k) \/ declared spec k).
Proof.
  intros _ Hin. destruct (emitted_accumulator spec result acc Hin) as [key [_ Hacc]].
  unfold accumulator in Hacc. destruct (partition spec key result) as [|first rest];
    [discriminate Hacc|]. injection Hacc as <-. split.
  - rewrite accumulate_all_id, accumulate_id. unfold Bolt.seed.
    rewrite lookup_union, lookup_singleton_eq.
    destruct (Bolt.gs_initial spec !! "_id"); simpl; eauto.
  - intros k [w Hk]. apply accumulate_all_own in Hk as [[w' Hk]|Hk]; [|now right; right].
    apply accumulate_own in Hk as [[w'' Hk]|Hk]; [|now right; right].
    unfold Bolt.seed in Hk. apply lookup_union_Some_raw in Hk as [Hk|[_ Hk]].
    + right. left. eauto.
    + left. destruct (String.eqb_spec k "_id") as [->|Hne]; [reflexivity|].
      rewrite lookup_singleton_ne in Hk by congruence. discriminate Hk.
Qed.

Lemma group_emits_declared_fields_witness :
  is_Some (Examples.document [("_id", VStr "dev"); ("pay", VNum 5)] !! "_id").
Proof.
  apply (group_emits_declared_fields Examples.by_dept Examples.slips
           (Examples.document [("_id", VStr "dev"); ("pay", VNum 5)])).
  - vm_compute; reflexivity.
  - vm_compute. right. left. reflexivity.
Defined.

(** ** A document without the accumulated field *)

Lemma add_nan (a : float) : PrimFloat.is_nan (a + PrimFloat.nan) = true.
Proof.
  unfold PrimFloat.is_nan. rewrite FloatAxioms.eqb_spec, FloatAxioms.add_spec.
  change (Prim2SF PrimFloat.nan) with S754_nan.
  assert (H : SF64add (Prim2SF a) S754_nan = S754_nan)
    by (unfold SF64add, SFadd; destruct (Prim2SF a); reflexivity).
  rewrite H. reflexivity.
Qed.

Lemma total_step_gap (field : string) (total : value) (gap : obj) :
  is_inherited field = false -> gap !! field = None ->
  number_or_falsy total = true ->
  exists x, total_step field total gap = VNum x /\ PrimFloat.is_nan x = true.
Proof.
  intros Hf Hgap Htotal. unfold total_step.
  rewrite (get_missing gap field Hgap). unfold inherited. rewrite Hf.
  rewrite (js_or_addend total Htotal). simpl.
  eexists. split; [reflexivity|apply add_nan].
Qed.

Lemma total_step_restart (field : string) (x : float) (doc : obj) :
  PrimFloat.is_nan x = true ->
  total_step field (VNum x) doc = total_step field (VNum 0) doc.
Proof.
  intros Hx. unfold total_step, js_or. simpl. rewrite Hx, orb_true_r. reflexivity.
Qed.

(** X14: in a [$group] stage that files no document under the name of a
    property of [Object.prototype], take a declared accumulator field, not
    itself the name of such a property, and a document [gap] that lacks it,
    and let the running total of its group be a number or falsy when [gap]
    arrives (the total over the documents [before] it, from the initial
    value).  Then [gap] turns the total into NaN, and the next document of
    the group restarts it from 0: the emitted value is NaN when [gap] is the
    last of its group, and otherwise the total, from 0, of the documents
    [after] it alone. *)
Theorem group_restarts_after_gap (spec : Bolt.group_spec) (result : list obj)
    (k : string) (before : list obj) (gap : obj) (after : list obj) (field : string) :
  plain_keys spec result = true ->
  partition spec k result = before ++ gap :: after ->
  declared spec field -> field <> "__proto__" -> is_inherited field = false ->
  gap !! field = None ->
  number_or_falsy
    (fold_left (total_step field) before (get (Bolt.gs_initial spec) field)) = true ->
  exists acc,
    In acc (Bolt.run_stage result (Bolt.group_stage spec))
    /\ (after = [] -> exists x, get acc field = VNum x /\ PrimFloat.is_nan x = true)
    /\ (after <> [] ->
        get acc field = fold_left (total_step field) after (VNum 0)).
Proof.
  intros Hplain Hpart (Hf & Hid & Hinit) Hpr Hinh Hgap Hbefore.
  assert (Hk : is_inherited k = false).
  { destruct before; eapply plain_partition; try exact Hplain; exact Hpart. }
  pose proof (grouped_get spec result k) as Hget. rewrite Hk, Hpart in Hget.
  assert (Hacc : exists first acc,
             Bolt.table_get k (Bolt.grouped spec result) = Some acc
             /\ acc = fold_left (fun acc doc => Bolt.accumulate spec doc acc)
                        (before ++ gap :: after)
                        (Bolt.seed spec (Bolt.group_key spec first))).
  { destruct before as [|b before]; simpl in Hget; eauto. }
  destruct Hacc as (first & acc & Hgot & ->). eexists. split.
  - change (Bolt.run_stage result (Bolt.group_stage spec))
      with (Bolt.table_values (Bolt.grouped spec result)).
    eapply table_get_in_values. exact Hgot.
  - rewrite accumulate_all_get, get_seed by assumption.
    change (fun v doc => js_add (js_or v (VNum 0)) (get doc field))
      with (total_step field).
    rewrite fold_left_app. cbn [fold_left].
    destruct (total_step_gap field _ gap Hinh Hgap Hbefore) as (x & -> & Hx). split.
    + intros ->. simpl. eauto.
    + intros Hne. destruct after as [|d after]; [contradiction|].
      cbn [fold_left]. now rewrite (total_step_restart field x d Hx).
Qed.

Lemma group_restarts_after_gap_witness :
  exists acc,
    In acc (Bolt.run_stage Examples.slips_with_gap (Bolt.group_stage Examples.by_dept))
    /\ ([Examples.slip3] = [] ->
        exists x, get acc "pay" = VNum x /\ PrimFloat.is_nan x = true)
    /\ ([Examples.slip3] <> [] ->
        get acc "pay" = fold_left (total_step "pay") [Examples.slip3] (VNum 0)).
Proof.
  apply (group_restarts_after_gap Examples.by_dept Examples.slips_with_gap "ops"
           [Examples.slip1] (Examples.document [("_id", VNum 2); ("dept", VStr "ops")])
           [Examples.slip3] "pay").
  - vm_compute; reflexivity.
  - vm_compute; reflexivity.
  - split; [vm_compute; tauto|split; discriminate].
  - discriminate.
  - reflexivity.
  - vm_compute; reflexivity.
  - vm_compute; reflexivity.
Defined.

(** ** Grouping by a field no document has *)

Lemma first_seen_repeat (k : string) (n : nat) :
  fold_left add_new (repeat k n) [k] = [k].
Proof.
  induction n as [|n IH]; simpl; [reflexivity|].
  unfold add_new at 2. simpl. now rewrite String.eqb_refl.
Qed.

Lemma key_strings_undefined (spec : Bolt.group_spec) (result : list obj) :
  (forall doc, In doc result -> Bolt.group_key spec doc = VUndefined) ->
  key_strings spec result = repeat "undefined" (length result).
Proof.
  unfold key_strings, key_string.
  induction result as [|d result IH]; intros H; simpl; [reflexivity|].
  rewrite (H d (or_introl eq_refl)). simpl. f_equal. apply IH.
  intros doc Hdoc. apply H. now right.
Qed.

Lemma order_of_undefined (n : nat) :
  own_property_order (repeat "undefined" (S n)) = ["undefined"].
Proof.
  unfold own_property_order.
  assert (Hi : omap Bolt.array_index (repeat "undefined" (S n)) = []).
  { induction (S n) as [|m IH]; [reflexivity|]. simpl. exact IH. }
  assert (Hf : List.filter files_named (repeat "undefined" (S n))
               = repeat "undefined" (S n)).
  { apply filterb_all. intros x Hx. apply repeat_spec in Hx as ->. reflexivity. }
  rewrite Hi, Hf. unfold first_seen. simpl. apply first_seen_repeat.
Qed.

(** X15: when no document of a non-empty working set has the grouping field,
    a [$group] stage files every document under ["undefined"]: it emits a
    single document, accumulated over the whole working set, and its [_id]
    is undefined unless the initial accumulator holds one. *)
Theorem group_by_absent_field (spec : Bolt.group_spec) (first : obj)
    (rest : list obj) :
  (forall doc, In doc (first :: rest) -> Bolt.group_key spec doc = VUndefined) ->
  exists acc,
    Bolt.run_stage (first :: rest) (Bolt.group_stage spec) = [acc]
    /\ accumulator spec (first :: rest) = Some acc
    /\ (Bolt.gs_initial spec !! "_id" = None -> get acc "_id" = VUndefined).
Proof.
  intros Hkeys.
  pose proof (emitted_by_key spec (first :: rest)) as Hem.
  rewrite grouped_keys, (key_strings_undefined spec _ Hkeys) in Hem.
  cbn [length] in Hem. rewrite order_of_undefined in Hem.
  change (Bolt.run_stage (first :: rest) (Bolt.group_stage spec))
    with (Bolt.table_values (Bolt.grouped spec (first :: rest))).
  apply Forall2_cons_inv_l in Hem as (acc & l & [_ Hacc] & Hnil & ->).
  apply Forall2_nil_inv_l in Hnil as ->.
  assert (Hpart : partition spec "undefined" (first :: rest) = first :: rest).
  { unfold partition. apply filterb_all. intros doc Hdoc.
    unfold key_string. now rewrite (Hkeys doc Hdoc). }
  rewrite Hpart in Hacc. exists acc. split; [reflexivity|]. split; [exact Hacc|].
  intros Hinit. injection Hacc as <-. unfold get.
  rewrite accumulate_all_id, accumulate_id. unfold Bolt.seed.
  rewrite lookup_union, lookup_singleton_eq, Hinit. simpl.
  apply (Hkeys first). now left.
Qed.

Lemma group_by_absent_field_witness :
  exists acc,
    Bolt.run_stage (Examples.slip1 :: [Examples.slip2]) (Bolt.group_stage Examples.by_age)
    = [acc]
    /\ accumulator Examples.by_age (Examples.slip1 :: [Examples.slip2]) = Some acc
    /\ (Bolt.gs_initial Examples.by_age !! "_id" = None -> get acc "_id" = VUndefined).
Proof.
  apply (group_by_absent_field Examples.by_age Examples.slip1 [Examples.slip2]).
  assert (H : forallb (fun doc => match Bolt.group_key Examples.by_age doc with
                                  | VUndefined => true
                                  | _ => false
                                  end) (Examples.slip1 :: [Examples.slip2]) = true)
    by (vm_compute; reflexivity).
  intros doc Hdoc. rewrite forallb_forall in H. specialize (H doc Hdoc).
  destruct (Bolt.group_key Examples.by_age doc); try discriminate H. reflexivity.
Defined.

(** ** The key generator *)

Section Numbers.
Local Open Scope Z_scope.

Lemma digits2_pos_bound (p : positive) :
  2 ^ (Z.pos (digits2_pos p) - 1) <= Z.pos p < 2 ^ Z.pos (digits2_pos p).
Proof.
  induction p as [p IH|p IH|]; cbn [digits2_pos].
  - rewrite Pos2Z.inj_succ.
    replace (Z.succ (Z.pos (digits2_pos p)) - 1)
      with (Z.succ (Z.pos (digits2_pos p) - 1)) by lia.
    rewrite !Z.pow_succ_r by lia.
    set (lo := 2 ^ (Z.pos (digits2_pos p) - 1)) in *.
    set (hi := 2 ^ Z.pos (digits2_pos p)) in *. lia.
  - rewrite Pos2Z.inj_succ.
    replace (Z.succ (Z.pos (digits2_pos p)) - 1)
      with (Z.succ (Z.pos (digits2_pos p) - 1)) by lia.
    rewrite !Z.pow_succ_r by lia.
    set (lo := 2 ^ (Z.pos (digits2_pos p) - 1)) in *.
    set (hi := 2 ^ Z.pos (digits2_pos p)) in *. lia.
  - simpl. lia.
Qed.

Lemma digits2_pos_shift (n p : positive) :
  digits2_pos (Pos.iter xO p n) = (digits2_pos p + n)%positive.
Proof.
  induction n as [|n IH] using Pos.peano_ind.
  - simpl. lia.
  - rewrite Pos.iter_succ. cbn [digits2_pos]. rewrite IH. lia.
Qed.

(** A mantissa of 53 bits is left as it is by the rounding. *)
Lemma round_canonical (m : positive) (e : Z) :
  Z.pos (digits2_pos m) = 53 -> -1074 <= e <= 971 ->
  binary_round_aux prec emax false (Z.pos m) e loc_Exact = S754_finite false m e.
Proof.
  intros Hd He.
  assert (Hs : shr_fexp prec emax (Z.pos m) e loc_Exact
               = ({| shr_m := Z.pos m; shr_r := false; shr_s := false |}, e)).
  { unfold shr_fexp, fexp, emin, prec, emax. cbn [Zdigits2 shr_record_of_loc].
    rewrite Hd.
    replace (Z.max (53 + e - 53) (3 - 1024 - 53) - e) with 0 by lia. reflexivity. }
  unfold binary_round_aux. rewrite Hs. cbn [shr_m loc_of_shr_record round_nearest_even].
  rewrite Hs. cbn [shr_m]. unfold emax, prec.
  destruct (Z.leb_spec e (1024 - 53)); [reflexivity|lia].
Qed.

Lemma number_of_small (p : positive) :
  Z.pos p < 2 ^ 53 ->
  exists m e, Prim2SF (number_of_Z (Z.pos p)) = S754_finite false m e
              /\ -52 <= e <= 0 /\ Z.pos m = Z.pos p * 2 ^ (- e).
Proof.
  intros Hp. unfold number_of_Z.
  rewrite FloatAxioms.of_uint63_spec, Uint63.of_Z_spec.
  rewrite Z.mod_small by (change wB with (2 ^ 63); lia).
  pose proof (digits2_pos_bound p) as [Hlo Hhi].
  assert (Hd : Z.pos (digits2_pos p) <= 53).
  { destruct (Z.le_gt_cases (Z.pos (digits2_pos p)) 53) as [H|H]; [exact H|].
    assert (2 ^ 53 <= 2 ^ (Z.pos (digits2_pos p) - 1))
      by (apply Z.pow_le_mono_r; lia).
    lia. }
  cbn [binary_normalize]. unfold binary_round, shl_align, fexp, emin, prec, emax.
  replace (Z.max (Z.pos (digits2_pos p) + 0 - 53) (3 - 1024 - 53) - 0)
    with (Z.pos (digits2_pos p) - 53) by lia.
  replace (Z.max (Z.pos (digits2_pos p) + 0 - 53) (3 - 1024 - 53))
    with (Z.pos (digits2_pos p) - 53) by lia.
  destruct (Z.pos (digits2_pos p) - 53) as [|d|d] eqn:Hdiff; try lia.
  - exists p, 0. split; [apply round_canonical; lia|]. split; [lia|]. simpl. lia.
  - exists (Pos.iter xO p d), (Z.neg d). split; [|split].
    + apply (round_canonical (Pos.iter xO p d) (Z.neg d)); [|lia].
      rewrite digits2_pos_shift. lia.
    + lia.
    + change (Pos.iter xO p d) with (shift_pos d p). rewrite shift_pos_correct.
      rewrite Z.pow_pos_fold. change (- Z.neg d) with (Z.pos d). ring.
Qed.

Lemma number_finite (g : Z) :
  1 <= g <= 2 ^ 53 -> exists m e, Prim2SF (number_of_Z g) = S754_finite false m e.
Proof.
  intros Hg. destruct (Z.eq_dec g (2 ^ 53)) as [->|Hne].
  - do 2 eexists. vm_compute. reflexivity.
  - destruct g as [|p|p]; try lia.
    destruct (number_of_small p) as (m & e & Hm & _); [lia|]. eauto.
Qed.

(** The numbers up to [2^53] are floats, exactly. *)
Lemma floor_of_number (g : Z) :
  1 <= g <= 2 ^ 53 -> floor_of_key (number_of_Z g) = g.
Proof.
  intros Hg. destruct (Z.eq_dec g (2 ^ 53)) as [->|Hne]; [vm_compute; reflexivity|].
  destruct g as [|p|p]; try lia.
  destruct (number_of_small p) as (m & e & Hm & He & Hv); [lia|].
  unfold floor_of_key. rewrite Hm.
  destruct (Z.leb_spec 0 e).
  - replace e with 0 in * by lia. simpl in Hv. rewrite Z.pow_0_r. lia.
  - rewrite Hv, Z.div_mul by (apply Z.pow_nonzero; lia). lia.
Qed.

Lemma number_is_key (g : Z) :
  1 <= g <= 2 ^ 53 ->
  key_of_value (VNum (number_of_Z g)) = Some (KNum (number_of_Z g)).
Proof.
  intros Hg. destruct (number_finite g Hg) as (m & e & Hm).
  unfold key_of_value, PrimFloat.is_nan.
  rewrite FloatAxioms.eqb_spec, Hm, SFeqb_refl by discriminate. reflexivity.
Qed.

Lemma floor_of_equal (x y : float) :
  PrimFloat.eqb x y = true -> floor_of_key x = floor_of_key y.
Proof.
  rewrite FloatAxioms.eqb_spec. intros H.
  apply SFeqb_inv in H as [(s & s' & Ha & Hb)|[Hab _]]; unfold floor_of_key.
  - rewrite Ha, Hb. reflexivity.
  - rewrite Hab. reflexivity.
Qed.

(** The current number is no record's key. *)
Lemma passed_fresh (g : Z) (s : store) :
  forallb (passed g) s = true -> 1 <= g <= 2 ^ 53 ->
  existsb (has_key (KNum (number_of_Z g))) s = false.
Proof.
  intros Hs Hg. induction s as [|r s IH]; [reflexivity|].
  cbn [forallb existsb] in *. apply andb_true_iff in Hs as [Hr Hs].
  rewrite (IH Hs), orb_false_r. unfold has_key, passed in *.
  destruct (record_key r) as [[x|t]|]; try reflexivity. cbn [key_eqb].
  destruct (PrimFloat.eqb (number_of_Z g) x) eqn:E; [|reflexivity].
  apply floor_of_equal in E. rewrite (floor_of_number g Hg) in E.
  apply Z.ltb_lt in Hr. lia.
Qed.

Lemma passed_mono (g g' : Z) (r : obj) :
  g <= g' -> passed g r = true -> passed g' r = true.
Proof.
  unfold passed. destruct (record_key r) as [[x|t]|]; try reflexivity.
  intros Hg H. apply Z.ltb_lt in H. apply Z.ltb_lt. lia.
Qed.

Lemma passed_bump (k : key) (g : Z) (r : obj) :
  record_key r = Some k -> passed (bump k g) r = true.
Proof.
  unfold passed, bump. intros ->. destruct k as [x|t]; [|reflexivity].
  destruct (Z.leb_spec g (floor_of_key x)); apply Z.ltb_lt; lia.
Qed.

Lemma bump_mono (k : key) (g : Z) : g <= bump k g.
Proof.
  unfold bump. destruct k as [x|t]; [|lia].
  destruct (Z.leb_spec g (floor_of_key x)); lia.
Qed.

End Numbers.

(** ** Inserting *)

Lemma existsb_false_in {A} (f : A -> bool) (l : list A) (x : A) :
  existsb f l = false -> In x l -> f x = false.
Proof.
  intros H Hx. destruct (f x) eqn:E; [|reflexivity].
  assert (existsb f l = true) by (apply existsb_exists; eauto).
  rewrite H in H0. discriminate H0.
Qed.

Lemma insert_sorted_split (k : key) (d : obj) (s : store) :
  exists A B, s = A ++ B /\ insert_sorted k d s = A ++ d :: B.
Proof.
  induction s as [|r t IH]; cbn [insert_sorted].
  - exists [], []. split; reflexivity.
  - destruct (key_before k r).
    + exists [], (r :: t). split; reflexivity.
    + destruct IH as (A & B & Ht & Hi). exists (r :: A), B.
      rewrite Ht at 1. rewrite Hi. split; reflexivity.
Qed.

Lemma key_value_clone (v : value) (k : key) :
  key_of_value v = Some k -> clone_value v = v.
Proof. destruct v; simpl; intros H; try discriminate H; reflexivity. Qed.

Lemma strict_eq_key (v w : value) (k k' : key) :
  key_of_value v = Some k -> key_of_value w = Some k' ->
  strict_eq w v = key_eqb k k'.
Proof.
  destruct v as [| |b|x|t|r sh], w as [| |b'|y|u|r' sh']; simpl;
    intros Hv Hw; try discriminate Hv; try discriminate Hw.
  - destruct (PrimFloat.is_nan x); [discriminate Hv|].
    destruct (PrimFloat.is_nan y); [discriminate Hw|].
    injection Hv as <-. injection Hw as <-. simpl. apply float_eqb_sym.
  - destruct (PrimFloat.is_nan x); [discriminate Hv|].
    injection Hv as <-. injection Hw as <-. reflexivity.
  - destruct (PrimFloat.is_nan y); [discriminate Hw|].
    injection Hv as <-. injection Hw as <-. reflexivity.
  - injection Hv as <-. injection Hw as <-. simpl. apply String.eqb_sym.
Qed.

(** Looking a record up by [_id] is comparing keys. *)
Lemma matches_id_has_key (r : obj) (v : value) (k k' : key) :
  key_of_value v = Some k -> record_key r = Some k' ->
  Bolt.matches (clone r) {[ "_id" := v ]} = key_eqb k k'.
Proof.
  intros Hv Hr. rewrite matches_id. unfold record_key in Hr.
  destruct (r !! "_id") as [w|] eqn:Hw; [|discriminate Hr].
  assert (Hget : get (clone r) "_id" = w).
  { apply get_own. rewrite clone_lookup, Hw. simpl. f_equal.
    exact (key_value_clone w k' Hr). }
  rewrite Hget. exact (strict_eq_key v w k k' Hv Hr).
Qed.

Lemma stored_key (d : obj) (v : value) (k : key) :
  key_of_value v = Some k -> record_key (<["_id" := v]> d) = Some k.
Proof. intros Hv. unfold record_key. now rewrite lookup_insert_eq. Qed.

Lemma stored_clone (d : obj) (v : value) (k : key) :
  key_of_value v = Some k ->
  clone (<["_id" := v]> (clone d)) = <["_id" := v]> (clone d).
Proof.
  intros Hv. unfold clone at 1. rewrite fmap_insert.
  rewrite (key_value_clone v k Hv). f_equal. apply clone_clone.
Qed.

Lemma store_ok_insert (A B : store) (d : obj) (k : key) :
  store_ok (A ++ B) = true -> record_key d = Some k ->
  existsb (has_key k) (A ++ B) = false ->
  store_ok (A ++ d :: B) = true.
Proof.
  intros Hok Hd Hex. induction A as [|a A IH]; cbn [app store_ok] in *.
  - rewrite Hd, Hok, andb_true_r. apply forallb_forall. intros x Hx.
    now rewrite (existsb_false_in _ _ x Hex Hx).
  - cbn [existsb] in Hex. apply orb_false_iff in Hex as [Ha Hex].
    destruct (record_key a) as [k'|] eqn:Hk'; [|discriminate Hok].
    apply andb_true_iff in Hok as [Hall Hok].
    rewrite (IH Hok Hex), andb_true_r.
    rewrite forallb_app in *. apply andb_true_iff in Hall as [HA HB].
    rewrite HA. cbn [forallb]. rewrite HB, andb_true_r. cbn [andb].
    unfold has_key in *. rewrite Hd. rewrite Hk' in Ha.
    rewrite key_eqb_sym, Ha. reflexivity.
Qed.

(** What [store.add] does: nothing and a failure, or one new record under a
    key no record had, with every other record left where it was. *)
Lemma add_shape (d : obj) (db : database) :
  add d db = (db, None)
  \/ exists v k A B g',
       key_of_value v = Some k /\ records db = A ++ B
       /\ existsb (has_key k) (records db) = false
       /\ add d db = ({| records := A ++ <["_id" := v]> (clone d) :: B;
                         generator := g' |}, Some v)
       /\ ((v = VNum (number_of_Z (generator db)) /\ g' = (generator db + 1)%Z
            /\ (generator db <= 2 ^ 53)%Z
            /\ (d !! "_id" = None \/ d !! "_id" = Some VUndefined))
           \/ (g' = bump k (generator db) /\ d !! "_id" = Some v)).
Proof.
  assert (Hnew : forall v d' next,
             store_new v d' next db = (db, None)
             \/ exists k A B,
                  key_of_value v = Some k /\ records db = A ++ B
                  /\ existsb (has_key k) (records db) = false
                  /\ store_new v d' next db
                     = ({| records := A ++ d' :: B; generator := next k |}, Some v)).
  { intros v d' next. unfold store_new.
    destruct (key_of_value v) as [k|]; [|now left].
    destruct (existsb (has_key k) (records db)) eqn:Hex; [now left|]. right.
    destruct (insert_sorted_split k d' (records db)) as (A & B & Hs & Hi).
    exists k, A, B. rewrite Hi. auto. }
  assert (Hgen : d !! "_id" = None \/ d !! "_id" = Some VUndefined ->
            (if (2 ^ 53 <? generator db)%Z then (db, None)
             else store_new (VNum (number_of_Z (generator db)))
                    (<["_id" := VNum (number_of_Z (generator db))]> (clone d))
                    (fun _ => (generator db + 1)%Z) db) = add d db ->
            add d db = (db, None)
            \/ exists v k A B g',
                 key_of_value v = Some k /\ records db = A ++ B
                 /\ existsb (has_key k) (records db) = false
                 /\ add d db = ({| records := A ++ <["_id" := v]> (clone d) :: B;
                                   generator := g' |}, Some v)
                 /\ ((v = VNum (number_of_Z (generator db))
                      /\ g' = (generator db + 1)%Z /\ (generator db <= 2 ^ 53)%Z
                      /\ (d !! "_id" = None \/ d !! "_id" = Some VUndefined))
                     \/ (g' = bump k (generator db) /\ d !! "_id" = Some v))).
  { intros Hid <-. destruct (Z.ltb_spec (2 ^ 53) (generator db)); [now left|].
    destruct (Hnew (VNum (number_of_Z (generator db)))
                (<["_id" := VNum (number_of_Z (generator db))]> (clone d))
                (fun _ => (generator db + 1)%Z))
      as [Hno|(k & A & B & Hk & Hs & Hex & Heq)]; [now left|].
    right. exists (VNum (number_of_Z (generator db))), k, A, B, (generator db + 1)%Z.
    repeat (split; [assumption|]). left. auto. }
  assert (Hown : forall v, d !! "_id" = Some v ->
            store_new v (clone d) (fun k => bump k (generator db)) db = add d db ->
            add d db = (db, None)
            \/ exists v k A B g',
                 key_of_value v = Some k /\ records db = A ++ B
                 /\ existsb (has_key k) (records db) = false
                 /\ add d db = ({| records := A ++ <["_id" := v]> (clone d) :: B;
                                   generator := g' |}, Some v)
                 /\ ((v = VNum (number_of_Z (generator db))
                      /\ g' = (generator db + 1)%Z /\ (generator db <= 2 ^ 53)%Z
                      /\ (d !! "_id" = None \/ d !! "_id" = Some VUndefined))
                     \/ (g' = bump k (generator db) /\ d !! "_id" = Some v))).
  { intros v Hid <-.
    destruct (Hnew v (clone d) (fun k => bump k (generator db)))
      as [Hno|(k & A & B & Hk & Hs & Hex & Heq)]; [now left|].
    right. exists v, k, A, B, (bump k (generator db)).
    repeat (split; [assumption|]). split; [|right; auto].
    replace (<["_id" := v]> (clone d)) with (clone d); [exact Heq|].
    symmetry. apply insert_id.
    rewrite clone_lookup, Hid. simpl. f_equal. exact (key_value_clone v k Hk). }
  unfold add in *. destruct (cloneable d); [|now left].
  destruct (d !! "_id") as [[| |b|x|t|r sh]|] eqn:Hid;
    first [apply Hgen; [auto|reflexivity] | eapply Hown; reflexivity].
Qed.

Lemma add_fresh (d : obj) (db : database) :
  database_ok db = true -> cloneable d = true -> d !! "_id" = None ->
  (generator db <= 2 ^ 53)%Z ->
  add d db
  = ({| records := insert_sorted (KNum (number_of_Z (generator db)))
                     (<["_id" := VNum (number_of_Z (generator db))]> (clone d))
                     (records db);
        generator := generator db + 1 |},
     Some (VNum (number_of_Z (generator db)))).
Proof.
  intros Hok Hc Hid Hg. unfold database_ok in Hok.
  apply andb_true_iff in Hok as [Hok Hpassed]. apply andb_true_iff in Hok as [_ H1].
  apply Z.leb_le in H1.
  unfold add, store_new. rewrite Hc, Hid.
  destruct (Z.ltb_spec (2 ^ 53) (generator db)); [lia|].
  rewrite (number_is_key (generator db)) by lia.
  rewrite (passed_fresh (generator db) (records db) Hpassed) by lia.
  reflexivity.
Qed.

Lemma add_keeps_ok (d : obj) (db : database) :
  database_ok db = true -> database_ok (add d db).1 = true.
Proof.
  intros Hok.
  destruct (add_shape d db)
    as [->|(v & k & A & B & g' & Hk & Hs & Hex & -> & Hg)]; [exact Hok|].
  unfold database_ok in *. cbn [fst records generator].
  apply andb_true_iff in Hok as [Hok Hpassed]. apply andb_true_iff in Hok as [Hok H1].
  apply Z.leb_le in H1. rewrite Hs in Hok, Hex, Hpassed.
  assert (Hle : (generator db <= g')%Z).
  { destruct Hg as [(_ & -> & _)|[-> _]]; [lia|apply bump_mono]. }
  assert (Hnew : passed g' (<["_id" := v]> (clone d)) = true).
  { destruct Hg as [(-> & -> & Hmax & _)|[-> _]].
    - unfold passed. rewrite (stored_key _ _ _ Hk).
      rewrite number_is_key in Hk by lia. injection Hk as <-.
      rewrite floor_of_number by lia. apply Z.ltb_lt. lia.
    - apply passed_bump. exact (stored_key _ _ _ Hk). }
  rewrite (store_ok_insert A B _ k Hok (stored_key _ _ _ Hk) Hex). cbn [andb].
  apply andb_true_iff. split; [apply Z.leb_le; lia|].
  rewrite forallb_app in *. apply andb_true_iff in Hpassed as [HA HB].
  cbn [forallb]. rewrite Hnew. cbn [andb]. apply andb_true_iff. split.
  - apply forallb_forall. intros x Hx. rewrite forallb_forall in HA.
    exact (passed_mono _ _ x Hle (HA x Hx)).
  - apply forallb_forall. intros x Hx. rewrite forallb_forall in HB.
    exact (passed_mono _ _ x Hle (HB x Hx)).
Qed.

Lemma find_new_by_id (A B : store) (d : obj) (v : value) (k : key) :
  store_ok (A ++ B) = true -> key_of_value v = Some k ->
  existsb (has_key k) (A ++ B) = false ->
  Bolt.find {[ "_id" := v ]} (A ++ <["_id" := v]> (clone d) :: B)
  = [<["_id" := v]> (clone d)].
Proof.
  intros Hok Hk Hex.
  assert (Hold : forall S' : store, (forall r, In r S' -> In r (A ++ B)) ->
             List.filter (fun doc => Bolt.matches doc {[ "_id" := v ]}) (map clone S')
             = []).
  { intros S' Hin. apply filter_nil_intro. intros x Hx.
    apply in_map_iff in Hx as (r & <- & Hr). apply Hin in Hr.
    destruct (store_ok_key _ r Hok Hr) as (k' & Hk').
    rewrite (matches_id_has_key r v k k' Hk Hk').
    pose proof (existsb_false_in _ _ r Hex Hr) as H. unfold has_key in H.
    rewrite Hk' in H. exact H. }
  unfold Bolt.find, read_all. rewrite map_app, List.filter_app.
  cbn [map List.filter].
  rewrite (Hold A) by (intros r Hr; apply in_or_app; now left).
  rewrite (Hold B) by (intros r Hr; apply in_or_app; now right).
  rewrite (stored_clone d v k Hk).
  rewrite matches_id, (get_own _ "_id" v) by apply lookup_insert_eq.
  rewrite (strict_eq_key v v k k Hk Hk), (key_eqb_refl v k Hk). reflexivity.
Qed.

(** X16: when [insertOne(doc)] resolves with an id, [find({ _id: id })]
    returns exactly the document that was stored, the clone of [doc] with
    this [_id], and so does [findOne]. *)
Theorem insertOne_round_trip (doc : obj) (db : database) (id : value) :
  database_ok db = true ->
  (Bolt.insertOne doc db).2 = Some id ->
  Bolt.find {[ "_id" := id ]} (records (Bolt.insertOne doc db).1)
  = [<["_id" := id]> (clone doc)]
  /\ Bolt.findOne {[ "_id" := id ]} (records (Bolt.insertOne doc db).1)
     = Some (<["_id" := id]> (clone doc)).
Proof.
  intros Hok Hid. unfold Bolt.findOne. rewrite find_head_filter.
  change (List.filter (fun d => Bolt.matches d {[ "_id" := id ]})
            (read_all (records (Bolt.insertOne doc db).1)))
    with (Bolt.find {[ "_id" := id ]} (records (Bolt.insertOne doc db).1)).
  unfold Bolt.insertOne in *.
  assert (Hfind : Bolt.find {[ "_id" := id ]} (records (add doc db).1)
                  = [<["_id" := id]> (clone doc)]).
  { destruct (add_shape doc db)
      as [Hno|(v & k & A & B & g' & Hk & Hs & Hex & Heq & _)].
    - rewrite Hno in Hid. discriminate Hid.
    - rewrite Heq in Hid |- *. cbn [fst snd records] in *. injection Hid as ->.
      unfold database_ok in Hok. apply andb_true_iff in Hok as [Hok _].
      apply andb_true_iff in Hok as [Hok _]. rewrite Hs in Hok, Hex.
      exact (find_new_by_id A B doc id k Hok Hk Hex). }
  rewrite Hfind. split; reflexivity.
Qed.

Lemma insertOne_round_trip_witness :
  Bolt.find {[ "_id" := VNum 4 ]}
    (records (Bolt.insertOne Examples.dana Examples.people_db).1)
  = [<["_id" := VNum 4]> (clone Examples.dana)]
  /\ Bolt.findOne {[ "_id" := VNum 4 ]}
       (records (Bolt.insertOne Examples.dana Examples.people_db).1)
     = Some (<["_id" := VNum 4]> (clone Examples.dana)).
Proof.
  apply (insertOne_round_trip Examples.dana Examples.people_db (VNum 4)).
  - vm_compute; reflexivity.
  - vm_compute; reflexivity.
Defined.

(** X17: on a database whose generator has not reached its limit of
    [2^53], [insertOne] of a document that can be cloned and has no [_id]
    resolves with the current number of the generator, and the generator
    moves on by one. *)
Theorem insertOne_generates_next_number (doc : obj) (db : database) :
  database_ok db = true -> cloneable doc = true -> doc !! "_id" = None ->
  (generator db <= 2 ^ 53)%Z ->
  (Bolt.insertOne doc db).2 = Some (VNum (number_of_Z (generator db)))
  /\ generator (Bolt.insertOne doc db).1 = (generator db + 1)%Z
  /\ length (records (Bolt.insertOne doc db).1) = S (length (records db)).
Proof.
  intros Hok Hc Hid Hg. unfold Bolt.insertOne.
  rewrite (add_fresh doc db Hok Hc Hid Hg). cbn [fst snd records generator].
  split; [reflexivity|]. split; [reflexivity|].
  destruct (insert_sorted_split (KNum (number_of_Z (generator db)))
              (<["_id" := VNum (number_of_Z (generator db))]> (clone doc))
              (records db)) as (A & B & -> & ->).
  rewrite !length_app. cbn [length]. lia.
Qed.

Lemma insertOne_generates_next_number_witness :
  (Bolt.insertOne Examples.dana Examples.people_db).2
  = Some (VNum (number_of_Z (generator Examples.people_db)))
  /\ generator (Bolt.insertOne Examples.dana Examples.people_db).1
     = (generator Examples.people_db + 1)%Z
  /\ length (records (Bolt.insertOne Examples.dana Examples.people_db).1)
     = S (length (records Examples.people_db)).
Proof.
  apply (insertOne_generates_next_number Examples.dana Examples.people_db).
  - vm_compute; reflexivity.
  - vm_compute; reflexivity.
  - vm_compute; reflexivity.
  - vm_compute; discriminate.
Defined.

Lemma add_rejected (d : obj) (db : database) :
  (add d db).2 = None -> add d db = (db, None).
Proof.
  intros H. destruct (add_shape d db)
    as [Hno|(v & k & A & B & g' & _ & _ & _ & Heq & _)]; [exact Hno|].
  rewrite Heq in H. discriminate H.
Qed.

Lemma add_resolved (d : obj) (db : database) (v : value) :
  (add d db).2 = Some v -> length (records (add d db).1) = S (length (records db)).
Proof.
  intros H. destruct (add_shape d db)
    as [Hno|(w & k & A & B & g' & _ & Hs & _ & Heq & _)].
  - rewrite Hno in H. discriminate H.
  - rewrite Heq, Hs. cbn [fst records]. rewrite !length_app. cbn [length]. lia.
Qed.

Lemma add_sublist (d : obj) (db : database) :
  sublist (records db) (records (add d db).1).
Proof.
  destruct (add_shape d db)
    as [->|(w & k & A & B & g' & _ & Hs & _ & -> & _)]; [reflexivity|].
  rewrite Hs. cbn [fst records]. apply sublist_app; [reflexivity|].
  apply sublist_cons. reflexivity.
Qed.

Lemma add_generator (d : obj) (db : database) :
  (generator db <= generator (add d db).1)%Z.
Proof.
  destruct (add_shape d db)
    as [->|(w & k & A & B & g' & _ & _ & _ & -> & Hg)]; [cbn [fst]; lia|].
  cbn [fst generator]. destruct Hg as [(_ & -> & _)|[-> _]]; [lia|apply bump_mono].
Qed.

Lemma sublist_find (Q : obj) (s s' : store) :
  sublist s s' -> sublist (Bolt.find Q s) (Bolt.find Q s').
Proof.
  unfold Bolt.find, read_all. induction 1 as [|x l1 l2 H IH|x l1 l2 H IH];
    cbn [map List.filter].
  - constructor.
  - destruct (Bolt.matches (clone x) Q); [apply sublist_skip|]; exact IH.
  - destruct (Bolt.matches (clone x) Q); [apply sublist_cons|]; exact IH.
Qed.

(** X18: [insertOne] never touches the records that are there: they stay,
    in their order, so whatever [find] returned before it still returns,
    and the generator never moves back.  A rejected insert leaves the
    database as it was. *)
Theorem insertOne_keeps_the_rest (doc : obj) (db : database) :
  database_ok db = true ->
  database_ok (Bolt.insertOne doc db).1 = true
  /\ sublist (records db) (records (Bolt.insertOne doc db).1)
  /\ (forall Q, sublist (Bolt.find Q (records db))
                  (Bolt.find Q (records (Bolt.insertOne doc db).1)))
  /\ (generator db <= generator (Bolt.insertOne doc db).1)%Z
  /\ ((Bolt.insertOne doc db).2 = None -> (Bolt.insertOne doc db).1 = db).
Proof.
  intros Hok. unfold Bolt.insertOne.
  split; [exact (add_keeps_ok doc db Hok)|].
  split; [apply add_sublist|].
  split; [intros Q; apply sublist_find, add_sublist|].
  split; [apply add_generator|].
  intros H. now rewrite (add_rejected doc db H).
Qed.

Lemma insertOne_keeps_the_rest_witness :
  database_ok (Bolt.insertOne Examples.dana Examples.people_db).1 = true
  /\ sublist (records Examples.people_db)
       (records (Bolt.insertOne Examples.dana Examples.people_db).1)
  /\ (forall Q, sublist (Bolt.find Q (records Examples.people_db))
                  (Bolt.find Q (records (Bolt.insertOne Examples.dana
                                           Examples.people_db).1)))
  /\ (generator Examples.people_db
      <= generator (Bolt.insertOne Examples.dana Examples.people_db).1)%Z
  /\ ((Bolt.insertOne Examples.dana Examples.people_db).2 = None ->
      (Bolt.insertOne Examples.dana Examples.people_db).1 = Examples.people_db).
Proof.
  apply (insertOne_keeps_the_rest Examples.dana Examples.people_db).
  vm_compute; reflexivity.
Defined.

Lemma strict_eq_key_inv (w v : value) (k' : key) :
  key_of_value w = Some k' -> strict_eq w v = true ->
  exists k, key_of_value v = Some k /\ key_eqb k k' = true.
Proof.
  destruct w as [| |b|y|u|r sh], v as [| |b'|x|t|r' sh']; simpl;
    intros Hw He; try discriminate Hw; try discriminate He.
  - destruct (PrimFloat.is_nan y); [discriminate Hw|]. injection Hw as <-.
    assert (Hx : PrimFloat.is_nan x = false).
    { unfold PrimFloat.is_nan. rewrite float_eqb_sym in He.
      now rewrite (float_eqb_meet x x y He He). }
    rewrite Hx. eexists. split; [reflexivity|]. simpl.
    now rewrite float_eqb_sym.
  - injection Hw as <-. eexists. split; [reflexivity|]. simpl.
    now rewrite String.eqb_sym.
Qed.

(** X19: [insertOne] of a document whose [_id] is the [_id] of a stored
    document, that is one that [find({ _id })] returns, is rejected and the
    database is left as it was: an insert never replaces. *)
Theorem insertOne_rejects_taken_id (doc : obj) (db : database) (v : value) :
  store_ok (records db) = true -> doc !! "_id" = Some v ->
  Bolt.find {[ "_id" := v ]} (records db) <> [] ->
  Bolt.insertOne doc db = (db, None).
Proof.
  intros Hok Hid Hfound.
  destruct (Bolt.find {[ "_id" := v ]} (records db)) as [|x l] eqn:Hf;
    [contradiction|].
  assert (Hx : In x (Bolt.find {[ "_id" := v ]} (records db)))
    by (rewrite Hf; now left).
  unfold Bolt.find, read_all in Hx. apply filter_In in Hx as [Hx Hm].
  apply in_map_iff in Hx as (r & <- & Hr).
  destruct (store_ok_key _ r Hok Hr) as (k' & Hk').
  rewrite matches_id in Hm.
  assert (Hget : exists w, get (clone r) "_id" = w /\ key_of_value w = Some k').
  { unfold record_key in Hk'. destruct (r !! "_id") as [w|] eqn:Hw; [|discriminate Hk'].
    exists w. split; [|exact Hk']. apply get_own. rewrite clone_lookup, Hw. simpl.
    f_equal. exact (key_value_clone w k' Hk'). }
  destruct Hget as (w & Hget & Hw). rewrite Hget in Hm.
  destruct (strict_eq_key_inv w v k' Hw Hm) as (k & Hk & Hkk).
  assert (Hex : existsb (has_key k) (records db) = true).
  { apply existsb_exists. exists r. split; [exact Hr|].
    unfold has_key. now rewrite Hk'. }
  unfold Bolt.insertOne, add. destruct (cloneable doc); [|reflexivity].
  rewrite Hid. unfold store_new.
  destruct v; try discriminate Hk; rewrite Hk, Hex; reflexivity.
Qed.

Lemma insertOne_rejects_taken_id_witness :
  Bolt.insertOne Examples.alice Examples.people_db = (Examples.people_db, None).
Proof.
  apply (insertOne_rejects_taken_id Examples.alice Examples.people_db (VNum 1)).
  - vm_compute; reflexivity.
  - vm_compute; reflexivity.
  - vm_compute; discriminate.
Defined.

(** ** [insertMany] *)

Lemma insert_next_eq (st : database * option (list value)) (doc : obj) :
  Bolt.insert_next st doc
  = ((Bolt.insertOne doc st.1).1,
     match st.2, (Bolt.insertOne doc st.1).2 with
     | Some ids, Some v => Some (ids ++ [v])
     | _, _ => None
     end).
Proof. unfold Bolt.insert_next. destruct (Bolt.insertOne doc st.1). reflexivity. Qed.

(** The database after [insertMany] does not depend on what the promises
    settle to. *)
Lemma insertMany_state (docs : list obj) (db : database) (r : option (list value)) :
  (fold_left Bolt.insert_next docs (db, r)).1
  = fold_left (fun db d => (Bolt.insertOne d db).1) docs db.
Proof.
  revert db r. induction docs as [|d docs IH]; intros db r; cbn [fold_left].
  - reflexivity.
  - rewrite insert_next_eq. cbn [fst snd]. apply IH.
Qed.

Lemma insertMany_rejected (docs : list obj) (db : database) :
  (fold_left Bolt.insert_next docs (db, None)).2 = None.
Proof.
  revert db. induction docs as [|d docs IH]; intros db; cbn [fold_left].
  - reflexivity.
  - rewrite insert_next_eq. cbn [fst snd]. apply IH.
Qed.

Lemma insertMany_resolved (docs : list obj) (db : database) (acc ids : list value) :
  (fold_left Bolt.insert_next docs (db, Some acc)).2 = Some ids ->
  length ids = length acc + length docs
  /\ length (records (fold_left Bolt.insert_next docs (db, Some acc)).1)
     = length (records db) + length docs.
Proof.
  revert db acc. induction docs as [|d docs IH]; intros db acc H;
    cbn [fold_left] in *.
  - injection H as <-. cbn [fst length]. lia.
  - rewrite insert_next_eq in H |- *. cbn [fst snd] in *.
    destruct (Bolt.insertOne d db).2 as [v|] eqn:E.
    + apply IH in H as [H1 H2]. rewrite H1, H2, length_app.
      unfold Bolt.insertOne in *. rewrite (add_resolved d db v E).
      cbn [length]. lia.
    + rewrite insertMany_rejected in H. discriminate H.
Qed.

Lemma insertMany_invariant (docs : list obj) (db : database) :
  database_ok db = true ->
  database_ok (fold_left (fun db d => (Bolt.insertOne d db).1) docs db) = true
  /\ sublist (records db)
       (records (fold_left (fun db d => (Bolt.insertOne d db).1) docs db))
  /\ (generator db
      <= generator (fold_left (fun db d => (Bolt.insertOne d db).1) docs db))%Z.
Proof.
  revert db. induction docs as [|d docs IH]; intros db Hok; cbn [fold_left].
  - split; [exact Hok|]. split; [reflexivity|lia].
  - destruct (IH (Bolt.insertOne d db).1 (add_keeps_ok d db Hok)) as (H1 & H2 & H3).
    split; [exact H1|]. split.
    + etransitivity; [apply (add_sublist d db)|exact H2].
    + pose proof (add_generator d db). unfold Bolt.insertOne in *. lia.
Qed.

Lemma numbers_from_S (g : Z) (n : nat) :
  numbers_from g (S n) = VNum (number_of_Z g) :: numbers_from (g + 1) n.
Proof.
  unfold numbers_from. cbn [seq map]. rewrite Z.add_0_r. f_equal.
  rewrite <- seq_shift, map_map. apply map_ext. intros i. do 2 f_equal. lia.
Qed.

Lemma insertMany_fresh (docs : list obj) (db : database) (acc : list value) :
  database_ok db = true ->
  Forall (fun d => cloneable d = true /\ d !! "_id" = None) docs ->
  (generator db + Z.of_nat (length docs) <= 2 ^ 53 + 1)%Z ->
  (fold_left Bolt.insert_next docs (db, Some acc)).2
  = Some (acc ++ numbers_from (generator db) (length docs))
  /\ generator (fold_left Bolt.insert_next docs (db, Some acc)).1
     = (generator db + Z.of_nat (length docs))%Z.
Proof.
  revert db acc. induction docs as [|d docs IH]; intros db acc Hok Hall Hmax;
    cbn [fold_left length] in *.
  - unfold numbers_from. cbn [seq map fst snd]. rewrite app_nil_r.
    split; [reflexivity|lia].
  - apply Forall_cons in Hall as [[Hc Hid] Hrest].
    assert (Hg : (generator db <= 2 ^ 53)%Z) by lia.
    pose proof (add_keeps_ok d db Hok) as Hok1.
    rewrite insert_next_eq. cbn [fst snd]. unfold Bolt.insertOne.
    rewrite (add_fresh d db Hok Hc Hid Hg) in *. cbn [fst snd] in *.
    match goal with
    | |- context [fold_left _ docs (?db1, Some ?acc1)] =>
        destruct (IH db1 acc1 Hok1 Hrest) as [H1 H2]; [cbn [generator]; lia|]
    end.
    rewrite H1, H2. cbn [generator]. rewrite numbers_from_S, <- app_assoc.
    split; [reflexivity|lia].
Qed.

(** X20: [insertMany] of documents that can be cloned and have no [_id], on
    a database whose generator has room for them, resolves with consecutive
    numbers in the order of the documents, starting at the current number
    of the generator, which moves on by the number of documents. *)
Theorem insertMany_numbers_in_order (docs : list obj) (db : database) :
  database_ok db = true ->
  Forall (fun d => cloneable d = true /\ d !! "_id" = None) docs ->
  (generator db + Z.of_nat (length docs) <= 2 ^ 53 + 1)%Z ->
  (Bolt.insertMany docs db).2 = Some (numbers_from (generator db) (length docs))
  /\ generator (Bolt.insertMany docs db).1
     = (generator db + Z.of_nat (length docs))%Z.
Proof.
  intros Hok Hall Hmax. unfold Bolt.insertMany.
  exact (insertMany_fresh docs db [] Hok Hall Hmax).
Qed.

Lemma insertMany_numbers_in_order_witness :
  (Bolt.insertMany [Examples.dana; Examples.dana] Examples.people_db).2
  = Some (numbers_from (generator Examples.people_db)
            (length [Examples.dana; Examples.dana]))
  /\ generator (Bolt.insertMany [Examples.dana; Examples.dana] Examples.people_db).1
     = (generator Examples.people_db
        + Z.of_nat (length [Examples.dana; Examples.dana]))%Z.
Proof.
  apply (insertMany_numbers_in_order [Examples.dana; Examples.dana]
           Examples.people_db).
  - vm_compute; reflexivity.
  - repeat constructor; vm_compute; reflexivity.
  - vm_compute; discriminate.
Defined.

(** X21: [insertMany] is not all-or-nothing.  When the insert of one
    document is rejected at its turn, the promise of [insertMany] is
    rejected, and yet every other document is inserted: the database ends
    as if the rejected document had not been in the list. *)
Theorem insertMany_is_not_atomic (before after : list obj) (bad : obj)
    (db : database) :
  (Bolt.insertOne bad (Bolt.insertMany before db).1).2 = None ->
  (Bolt.insertMany (before ++ bad :: after) db).2 = None
  /\ (Bolt.insertMany (before ++ bad :: after) db).1
     = (Bolt.insertMany (before ++ after) db).1.
Proof.
  intros Hbad. unfold Bolt.insertMany in *. rewrite !fold_left_app.
  cbn [fold_left]. rewrite insert_next_eq.
  unfold Bolt.insertOne in *. rewrite (add_rejected bad _ Hbad). cbn [fst snd].
  assert (Hnone : match (fold_left Bolt.insert_next before (db, Some [])).2 with
                  | Some _ => None
                  | None => None
                  end = (None : option (list value)))
    by (destruct (fold_left Bolt.insert_next before (db, Some [])).2; reflexivity).
  rewrite Hnone. split; [apply insertMany_rejected|].
  destruct (fold_left Bolt.insert_next before (db, Some [])) as [db1 r1].
  cbn [fst]. now rewrite !insertMany_state.
Qed.

Lemma insertMany_is_not_atomic_witness :
  (Bolt.insertMany ([Examples.dana] ++ Examples.alice :: [Examples.dana])
     Examples.fresh).2 = None
  /\ (Bolt.insertMany ([Examples.dana] ++ Examples.alice :: [Examples.dana])
        Examples.fresh).1
     = (Bolt.insertMany ([Examples.dana] ++ [Examples.dana]) Examples.fresh).1.
Proof.
  apply (insertMany_is_not_atomic [Examples.dana] [Examples.dana] Examples.alice
           Examples.fresh).
  vm_compute; reflexivity.
Defined.

(** X22: [insertMany] keeps what the store maintains and every record that
    was there, in its order; when it resolves, it resolves with one id for
    each document and the store has grown by as many records. *)
Theorem insertMany_keeps_the_rest (docs : list obj) (db : database) :
  database_ok db = true ->
  database_ok (Bolt.insertMany docs db).1 = true
  /\ sublist (records db) (records (Bolt.insertMany docs db).1)
  /\ (forall ids, (Bolt.insertMany docs db).2 = Some ids ->
        length ids = length docs
        /\ length (records (Bolt.insertMany docs db).1)
           = length (records db) + length docs).
Proof.
  intros Hok. unfold Bolt.insertMany. rewrite insertMany_state.
  destruct (insertMany_invariant docs db Hok) as (H1 & H2 & _).
  split; [exact H1|]. split; [exact H2|].
  intros ids Hids. rewrite <- (insertMany_state docs db (Some [])).
  exact (insertMany_resolved docs db [] ids Hids).
Qed.

Lemma insertMany_keeps_the_rest_witness :
  database_ok (Bolt.insertMany [Examples.dana; Examples.alice] Examples.people_db).1
  = true
  /\ sublist (records Examples.people_db)
       (records (Bolt.insertMany [Examples.dana; Examples.alice]
                   Examples.people_db).1)
  /\ (forall ids,
        (Bolt.insertMany [Examples.dana; Examples.alice] Examples.people_db).2
        = Some ids ->
        length ids = length [Examples.dana; Examples.alice]
        /\ length (records (Bolt.insertMany [Examples.dana; Examples.alice]
                              Examples.people_db).1)
           = length (records Examples.people_db)
             + length [Examples.dana; Examples.alice]).
Proof.
  apply (insertMany_keeps_the_rest [Examples.dana; Examples.alice]
           Examples.people_db).
  vm_compute; reflexivity.
Defined.
